(** * RideDEventSink: a shallow embedding of [ride_d_event_sink.py]

    The sink keeps a registry of subscribers (a dict from topic to a set of
    host addresses), validates subscriptions against the RIDE-D middleware,
    installs static routes for publishers at start-up and dispatches alerts
    over CoAP, by multicast or by one unicast message per subscriber.

    The Python methods are embedded as computations in a state-and-exception
    monad over the sink object and the sequence of externally visible effects
    (log records, CoAP requests, calls into RIDE-D).  RIDE-D, the topology
    manager, the CoAP client and the event encoder are not part of the
    repository: they are an interface ([Externals]) every result is
    parametric in.

    Conventions of the embedding:
    - a method is a function from the world before the call to the world
      after it and either a value or the exception raised; what a method
      changed before raising stays changed;
    - methods run one at a time: [__subscriber_lock] has no counterpart;
    - [assert] statements are executed (the interpreter runs without -O);
    - a RideD object is true in a condition, as any object of a class that
      defines neither [__nonzero__] nor [__len__];
    - every exception is an instance of [BaseException];
    - logging, [timed_call], [register_api] and the methods of the base class
      return normally; they are recorded as effects. *)

From stdpp Require Import base strings gmap list.
From Stdlib Require Import ZArith.

#[local] Set Warnings "-clear-no-such-hyp".

(** ** Python exceptions and results *)

(** The exception classes that matter to the handlers of the sink.  In the
    Python 2 this code is written for, [socket.error] is a subclass of
    [IOError]; every class is a subclass of [BaseException]. *)
Inductive exn_class :=
| IOError | socket_error | KeyError | AttributeError | AssertionError
| IndexError | ValueError | NetworkXNoPath | KeyboardInterrupt.

Record exn := Exn { exn_cls : exn_class; exn_msg : string }.

(** [except IOError] *)
Definition is_IOError (e : exn) : bool :=
  match exn_cls e with
  | IOError | socket_error => true
  | _ => false
  end.

(** [except BaseException] *)
Definition is_BaseException (e : exn) : bool := true.

Inductive result (A : Type) :=
| Ok (a : A)
| Raise (e : exn).
Arguments Ok {A} a.
Arguments Raise {A} e.

(** ** External collaborators *)

Inductive level := DEBUG | INFO | WARNING | ERROR.

(** scale_client's SensedEvent, reduced to the attributes the sink reads. *)
Record Event := {
  topic : string;
  data : string;
  source : string;
  is_local : bool
}.

(** The keyword arguments [__init__] stores in a dict, from which [on_start]
    builds the middleware. *)
Record rided_kwargs (Node : Type) := {
  kw_topology_mgr : string;
  kw_dpid : Node;
  kw_addresses : list string;
  kw_ntrees : nat;
  kw_tree_choosing_heuristic : string;
  kw_tree_construction_algorithm : list string
}.
Arguments kw_topology_mgr {Node} _.
Arguments kw_dpid {Node} _.
Arguments kw_addresses {Node} _.
Arguments kw_ntrees {Node} _.
Arguments kw_tree_choosing_heuristic {Node} _.
Arguments kw_tree_construction_algorithm {Node} _.

(** What the sink imports: [ride.ride_d.RideD] with its topology manager,
    [scale_client]'s CoAP client and event encoding, and the constants of
    [seismic_alert_common].  An operation takes the collaborator's state and
    returns its next state with a value or a raised exception. *)
Class Externals := {
  Node : Type;
  Route : Type;
  FlowRule : Type;
  RideD : Type;
  CoapConn : Type;
  Response : Type;
  (* seismic_alert_common *)
  SEISMIC_ALERT_TOPIC : string;
  SEISMIC_PICK_TOPIC : string;
  SUBSCRIPTION_API_PATH : string;
  get_hostname_from_path : string → option string;
  (* ride.ride_d.RideD *)
  RideD_new : rided_kwargs Node → result RideD;
  rided_dpid : RideD → Node;
  rided_update : RideD → RideD * result unit;
  get_best_multicast_address : RideD → string → RideD * result string;
  add_subscriber : RideD → Node → string → RideD * result unit;
  notify_publication : RideD → string → string → RideD * result unit;
  set_publisher_route : RideD → Node → Route → RideD * result unit;
  (* RideD.topology_manager *)
  get_host_by_ip : RideD → string → RideD * result Node;
  get_path : RideD → Node → Node → RideD * result Route;
  build_flow_rules_from_path : RideD → Route → RideD * result (list FlowRule);
  install_flow_rule : RideD → FlowRule → RideD * result unit;
  (* scale_client *)
  encode_event : Event → string;
  CoapClient_new : string → Z → bool → result CoapConn;
  coap_put : CoapConn → string * Z → string → string → CoapConn * result unit;
  coap_response_success : Response → bool;
  response_code : Response → Z;
  NOT_FOUND_number : Z;
  (* iteration order of a Python set: some enumeration of its elements *)
  set_iter : gset string → list string;
  set_iter_perm : ∀ s, set_iter s ≡ₚ elements s
}.

Section Sink.
Context `{E : Externals}.

(** ** The sink object *)

(** [self.rided] holds [None], the stored keyword arguments, or the built
    middleware, at different times. *)
Inductive rided_slot :=
| RidedNone
| RidedDict (kw : rided_kwargs Node)
| RidedBuilt (r : RideD).

Record CoapClient := {
  server : string * Z;
  confirmable_messages : bool;
  conn : CoapConn
}.

Record RideDEventSink := {
  subscribers : gmap string (gset string);
  port : Z;
  topics_to_sink : gset string;
  maintenance_interval : Z;
  use_multicast : bool;
  rided : rided_slot;
  publishers : option (list Node);
  coap_client : CoapClient
}.

Definition set_subscribers (m : gmap string (gset string)) (s : RideDEventSink) :=
  {| subscribers := m; port := port s; topics_to_sink := topics_to_sink s;
     maintenance_interval := maintenance_interval s;
     use_multicast := use_multicast s; rided := rided s;
     publishers := publishers s; coap_client := coap_client s |}.

Definition set_rided (r : rided_slot) (s : RideDEventSink) :=
  {| subscribers := subscribers s; port := port s;
     topics_to_sink := topics_to_sink s;
     maintenance_interval := maintenance_interval s;
     use_multicast := use_multicast s; rided := r;
     publishers := publishers s; coap_client := coap_client s |}.

Definition set_coap_client (c : CoapClient) (s : RideDEventSink) :=
  {| subscribers := subscribers s; port := port s;
     topics_to_sink := topics_to_sink s;
     maintenance_interval := maintenance_interval s;
     use_multicast := use_multicast s; rided := rided s;
     publishers := publishers s; coap_client := c |}.

(** ** Observable effects *)

(** A log record keeps its level and the format string of the call; the
    rendering of the [%s] arguments is Python's [str] and is left out. *)
Inductive effect :=
| Log (lvl : level) (fmt : string)
| EncodeEvent (ev : Event)
| CoapPut (dest : string * Z) (confirmable : bool) (path payload : string)
| CoapClose
| TimedCall (interval : Z) (method : string) (repeat : bool)
| RegisterApi (path name : string)
| SuperOnStart
| SuperOnStop
| Call_update
| Call_get_best_multicast_address (t : string)
| Call_add_subscriber (host : Node) (topic_id : string)
| Call_notify_publication (publisher id_type : string)
| Call_set_publisher_route (pub : Node) (route : Route)
| Call_get_host_by_ip (ip : string)
| Call_get_path (a b : Node)
| Call_build_flow_rules_from_path (route : Route)
| Call_install_flow_rule (r : FlowRule).

Record World := {
  self : RideDEventSink;
  out : list effect
}.

(** ** The monad of methods *)

Definition M (A : Type) : Type := World → World * result A.

Definition ret {A} (a : A) : M A := λ w, (w, Ok a).

Definition bind {A B} (m : M A) (k : A → M B) : M B := λ w,
  match m w with
  | (w', Ok a) => k a w'
  | (w', Raise e) => (w', Raise e)
  end.

#[export] Instance M_ret : MRet M := @ret.
#[export] Instance M_bind : MBind M := λ A B k m, bind m k.

Definition raise {A} (e : exn) : M A := λ w, (w, Raise e).

(** [try: body except <class> as e: handler e] *)
Definition try_except {A} (body : M A) (catches : exn → bool)
    (handler : exn → M A) : M A := λ w,
  match body w with
  | (w', Ok a) => (w', Ok a)
  | (w', Raise e) => if catches e then handler e w' else (w', Raise e)
  end.

(** [for x in l: f x] *)
Fixpoint for_ {A} (l : list A) (f : A → M unit) : M unit :=
  match l with
  | [] => ret tt
  | x :: l' => f x;; for_ l' f
  end.

Definition get : M RideDEventSink := λ w, (w, Ok (self w)).

Definition modify (f : RideDEventSink → RideDEventSink) : M unit := λ w,
  ({| self := f (self w); out := out w |}, Ok tt).

Definition emit (e : effect) : M unit := λ w,
  ({| self := self w; out := out w ++ [e] |}, Ok tt).

Definition log (lvl : level) (fmt : string) : M unit := emit (Log lvl fmt).

(** [assert c, msg] *)
Definition assert (c : bool) (msg : string) : M unit :=
  if c then ret tt else raise (Exn AssertionError msg).


(** A method call on [self.rided] (or on its [topology_manager]).  The
    attribute lookup fails on [None] and on the stored dict. *)
Definition no_attribute {A} (slot : rided_slot) : result A :=
  match slot with
  | RidedNone => Raise (Exn AttributeError "'NoneType' object has no attribute")
  | _ => Raise (Exn AttributeError "'dict' object has no attribute")
  end.

Definition with_rided {A} (call : effect) (op : RideD → RideD * result A) : M A :=
  λ w,
  match rided (self w) with
  | RidedBuilt r =>
      let '(r', res) := op r in
      ({| self := set_rided (RidedBuilt r') (self w); out := out w ++ [call] |}, res)
  | slot => (w, no_attribute slot)
  end.

(** [self.rided.dpid] *)
Definition read_dpid : M Node := λ w,
  match rided (self w) with
  | RidedBuilt r => (w, Ok (rided_dpid r))
  | slot => (w, no_attribute slot)
  end.

(** Truth value of [self.rided] in a condition: [None] is false, the
    (non-empty) dict of keyword arguments and a RideD object are true. *)
Definition rided_truthy (slot : rided_slot) : bool :=
  match slot with
  | RidedNone => false
  | RidedDict _ | RidedBuilt _ => true
  end.

Definition is_not_None (slot : rided_slot) : bool :=
  match slot with
  | RidedNone => false
  | _ => true
  end.

(** ** The subscriber registry: [self.subscribers] *)

(** [d.setdefault(k, default)]: the dict afterwards and the value returned. *)
Definition setdefault (k : string) (default : gset string)
    (d : gmap string (gset string)) : gmap string (gset string) * gset string :=
  match d !! k with
  | Some v => (d, v)
  | None => (<[k := default]> d, default)
  end.

(** [self.subscribers.setdefault(topic, set()).add(host)]: the set returned
    is the one the dict holds, and [add] updates it in place. *)
Definition registry_add (topic host : string)
    (d : gmap string (gset string)) : gmap string (gset string) :=
  let '(d', hosts) := setdefault topic ∅ d in
  <[topic := hosts ∪ {[host]}]> d'.

(** [self.subscribers.get(topic, [])], as the sequence a [for] goes over. *)
Definition registry_get (topic : string) (d : gmap string (gset string))
    : list string :=
  match d !! topic with
  | Some hosts => set_iter hosts
  | None => []
  end.

(** ** Methods *)

Definition BUILD_RIDED_IN_INIT : bool := false.

(** The format strings of the two warnings about routes. *)
Definition publisher_route_not_found : string :=
  "Route between publisher %s and server %s not found: skipping...\nError: %s".

Definition subscriber_route_not_found : string :=
  "Route between subscriber %s and server %s not found: skipping...\nError: %s".

Record InitArgs := {
  arg_dpid : Node;
  arg_addresses : list string;
  arg_topology_mgr : string;
  arg_ntrees : nat;
  arg_tree_choosing_heuristic : string;
  arg_tree_construction_algorithm : list string;
  arg_publishers : option (list Node);
  arg_maintenance_interval : Z;
  arg_multicast : bool;
  arg_port : Z;
  arg_topics_to_sink : list string
}.

(** [__init__].  The calls into the base class and the subscription to
    CoapServerRunning are outside the model; the world starts with no
    recorded effect. *)
Definition __init__ (a : InitArgs) : result World :=
  let kw := {| kw_topology_mgr := arg_topology_mgr a; kw_dpid := arg_dpid a;
               kw_addresses := arg_addresses a; kw_ntrees := arg_ntrees a;
               kw_tree_choosing_heuristic := arg_tree_choosing_heuristic a;
               kw_tree_construction_algorithm :=
                 arg_tree_construction_algorithm a |} in
  let slot :=
    if negb (arg_multicast a) then Ok RidedNone
    else if negb BUILD_RIDED_IN_INIT then Ok (RidedDict kw)
    else match RideD_new kw with
         | Ok r => Ok (RidedBuilt r)
         | Raise e => Raise e
         end in
  match slot with
  | Raise e => Raise e
  | Ok slot =>
      match arg_addresses a with
      | [] => Raise (Exn IndexError "list index out of range")
      | a0 :: _ =>
          match CoapClient_new a0 (arg_port a) (negb (arg_multicast a)) with
          | Raise e => Raise e
          | Ok c =>
              Ok {| self :=
                      {| subscribers := ∅;
                         port := arg_port a;
                         topics_to_sink := list_to_set (arg_topics_to_sink a);
                         maintenance_interval := arg_maintenance_interval a;
                         use_multicast := arg_multicast a;
                         rided := slot;
                         publishers := arg_publishers a;
                         coap_client :=
                           {| server := (a0, arg_port a);
                              confirmable_messages := negb (arg_multicast a);
                              conn := c |} |};
                    out := [] |}
          end
      end
  end.

(** [__maintain_topology] *)
Definition __maintain_topology : M unit :=
  with_rided Call_update rided_update.

(** The first three statements of the [try] block of [on_start]: the path
    from the publisher to the server, its flow rules, and their
    installation. *)
Definition install_route_rules (pub : Node) : M Route :=
  dpid ← read_dpid;
  route ← with_rided (Call_get_path pub dpid) (λ r, get_path r pub dpid);
  flow_rules ← with_rided (Call_build_flow_rules_from_path route)
                 (λ r, build_flow_rules_from_path r route);
  for_ flow_rules
    (λ fr, with_rided (Call_install_flow_rule fr) (λ r, install_flow_rule r fr));;
  mret route.

(** One iteration of the loop over [self.publishers] in [on_start]. *)
Definition install_publisher_route (pub : Node) : M unit :=
  try_except
    (route ← install_route_rules pub;
     with_rided (Call_set_publisher_route pub route)
       (λ r, set_publisher_route r pub route))
    is_BaseException
    (λ e,
     _ ← read_dpid;
     log WARNING publisher_route_not_found).

Definition install_publisher_routes (pubs : list Node) : M unit :=
  for_ pubs install_publisher_route.

Definition on_start : M unit :=
  s ← get;
  (if is_not_None (rided s) then
     (if negb BUILD_RIDED_IN_INIT then
        match rided s with
        | RidedDict kw =>
            match RideD_new kw with
            | Ok r => modify (set_rided (RidedBuilt r))
            | Raise e => raise e
            end
        | _ => raise (Exn AssertionError "")
        end
      else mret tt);;
     s ← get;
     assert (match rided s with RidedBuilt _ => true | _ => false end) "";;
     emit (TimedCall (maintenance_interval s) "__maintain_topology" true);;
     match publishers s with
     | None => raise (Exn AssertionError "")
     | Some pubs =>
         log INFO "setting static routes for publishers";;
         install_publisher_routes pubs
     end
   else mret tt);;
  emit SuperOnStart.

(** [self.coap_client.put(path=path, payload=msg, callback=...)]: the request
    goes to the client's current [server]. *)
Definition coap_client_put (path payload : string) : M unit := λ w,
  let c := coap_client (self w) in
  let '(conn', res) := coap_put (conn c) (server c) path payload in
  ({| self := set_coap_client
                {| server := server c;
                   confirmable_messages := confirmable_messages c;
                   conn := conn' |} (self w);
      out := out w ++ [CoapPut (server c) (confirmable_messages c) path payload] |},
   res).

(** [__sendto(msg, topic, address, port=None)] *)
Definition __sendto (msg topic address : string) (port_arg : option Z) : M unit :=
  s ← get;
  let port := match port_arg with None => port s | Some p => p end in
  let path := "/events/" +:+ topic in
  modify (λ s, set_coap_client
                 {| server := (address, port);
                    confirmable_messages := confirmable_messages (coap_client s);
                    conn := conn (coap_client s) |} s);;
  coap_client_put path msg;;
  log DEBUG "RIDE-D message sent: topic=%s ; address=%s".

(** [__put_event_callback]: the response to a PUT is only logged; the
    client passes [None] when it closes. *)
Definition __put_event_callback (response : option Response) : M unit :=
  match response with
  | None => mret ()
  | Some response =>
      if coap_response_success response then
        log DEBUG "successfully sent alert!"
      else if (response_code response =? NOT_FOUND_number)%Z then
        log DEBUG
          "remote rejected PUT request for uncreated object: did you forget to add that resource?"
      else
        log ERROR "failed to send aggregated events due to Coap error: %s"
  end.

Definition send_event (event : Event) : M bool :=
  let topic := topic event in
  emit (EncodeEvent event);;
  let encoded_event := encode_event event in
  log DEBUG "Sending event via RIDE-D with topic %s";;
  try_except
    (s ← get;
     (if use_multicast s then
        assert (is_not_None (rided s))
          "woops!  Ride-D should be set up but it isn't...";;
        address ← with_rided (Call_get_best_multicast_address topic)
                    (λ r, get_best_multicast_address r topic);
        __sendto encoded_event topic address None
      else
        for_ (registry_get topic (subscribers s))
          (λ address, __sendto encoded_event topic address None));;
     mret true)
    is_IOError
    (λ e,
     log ERROR "failed to send event via CoAP PUT due to error: %s";;
     mret false).

Definition on_event (event : Event) (topic : string) : M unit :=
  assert (String.eqb topic SEISMIC_PICK_TOPIC)
    ("received non-seismic event we didn't subscribe to! topic=" +:+ topic);;
  s ← get;
  if rided_truthy (rided s) && negb (is_local event) then
    match get_hostname_from_path (source event) with
    | None =>
        raise (Exn AssertionError
                 ("error processing publication with no source hostname: "
                  +:+ source event))
    | Some publisher =>
        with_rided (Call_notify_publication publisher "ip")
          (λ r, notify_publication r publisher "ip")
    end
  else mret tt.

(** The [if self.rided:] block of [process_subscription]; [Some b] stands for
    [return b] from inside the block, [None] for falling through. *)
Definition validate_subscriber (host : string) : M (option bool) :=
  try_except
    (node ← with_rided (Call_get_host_by_ip host) (λ r, get_host_by_ip r host);
     dpid ← read_dpid;
     with_rided (Call_get_path node dpid) (λ r, get_path r node dpid);;
     with_rided (Call_add_subscriber node SEISMIC_ALERT_TOPIC)
       (λ r, add_subscriber r node SEISMIC_ALERT_TOPIC);;
     mret None)
    is_BaseException
    (λ e,
     _ ← read_dpid;
     log WARNING subscriber_route_not_found;;
     mret (Some false)).

Definition process_subscription (topic host : string) : M bool :=
  log DEBUG "processing RIDE-D subscription for topic '%s' by host '%s'";;
  modify (λ s, set_subscribers (registry_add topic host (subscribers s)) s);;
  s ← get;
  returned ← (if rided_truthy (rided s) then validate_subscriber host
              else mret None);
  match returned with
  | Some b => mret b
  | None => mret true
  end.

(** [__on_coap_ready]: checks the middleware and registers the subscription
    endpoint ([self._server] is stored and not read by any method here). *)
Definition __on_coap_ready : M unit :=
  s ← get;
  (if use_multicast s then
     assert (is_not_None (rided s)) "woops coap is set up but ride-d isn't!!"
   else mret tt);;
  emit (RegisterApi SUBSCRIPTION_API_PATH
          (SEISMIC_ALERT_TOPIC +:+ " subscription registration")).

Record CoapRequest := {
  req_source : string * Z;
  req_payload : string
}.

(** [__process_coap_subscription], the POST callback of the endpoint: it
    returns the resource, or [False] (here [None]). *)
Definition __process_coap_subscription {Res} (coap_request : CoapRequest)
    (coap_resource : Res) : M (option Res) :=
  let '(host, _) := req_source coap_request in
  let payload := req_payload coap_request in
  let topic := payload in
  assert (String.eqb topic SEISMIC_ALERT_TOPIC)
    ("unrecognized subscription topic " +:+ topic);;
  accepted ← process_subscription topic host;
  match accepted with
  | true => mret (Some coap_resource)
  | false => mret None
  end.

Definition check_available (event : Event) : M bool :=
  s ← get;
  mret (bool_decide (topic event ∈ topics_to_sink s)
        && bool_decide (is_Some (subscribers s !! topic event))).

Definition on_stop : M unit :=
  emit CoapClose;;
  emit SuperOnStop.

End Sink.

(** * Vocabulary of the properties *)

Section Vocabulary.
Context `{E : Externals}.
Implicit Types (d : gmap string (gset string)) (w : World) (t h : string)
  (ev : Event).

(** ** The registry *)

(** The pair (topic, host) is in the registry. *)
Definition registered d t h : Prop :=
  ∃ hosts, d !! t = Some hosts ∧ h ∈ hosts.

(** Every key of the registry has at least one host. *)
Definition keys_inhabited d : Prop :=
  ∀ t hosts, d !! t = Some hosts → hosts ≠ ∅.

(** The registry read as a sequence of (topic, host) entries, the way a
    loop over the dict's items and each set goes through it. *)
Definition registry_entries d : list (string * string) :=
  map_to_list d ≫= λ item, (λ h, (item.1, h)) <$> set_iter item.2.

(** A sequence of insertions, oldest first. *)
Definition insertions (ops : list (string * string)) d :=
  foldl (λ d op, registry_add op.1 op.2 d) d ops.

(** ** States of the sink *)

(** One call of an entry point of the sink: by the framework ([on_start],
    [on_stop], [on_event], the timer of [__maintain_topology], the
    CoapServerRunning callback), by the CoAP server (a subscription request),
    by the CoAP client (the response to a PUT) or by whoever sinks an event
    ([check_available], [send_event]).  The
    world after the call is the one the method leaves, whether it returned
    or raised. *)
Inductive step : World → World → Prop :=
| step_on_start w : step w (on_start w).1
| step_maintain_topology w : step w (__maintain_topology w).1
| step_on_coap_ready w : step w (__on_coap_ready w).1
| step_coap_subscription req w :
    step w (__process_coap_subscription req () w).1
| step_process_subscription t h w : step w (process_subscription t h w).1
| step_on_event ev t w : step w (on_event ev t w).1
| step_check_available ev w : step w (check_available ev w).1
| step_send_event ev w : step w (send_event ev w).1
| step_on_stop w : step w (on_stop w).1
| step_put_event_callback resp w : step w (__put_event_callback resp w).1.

Inductive reachable : World → Prop :=
| reachable_init a w : __init__ a = Ok w → reachable w
| reachable_step w w' : reachable w → step w w' → reachable w'.

(** The registry is the same in both objects. *)
Definition same_registry : relation RideDEventSink :=
  λ s s', subscribers s' = subscribers s.

(** A method respects a preorder [R] on sink objects when the object it
    leaves is related to the one it was called on, however it ends. *)
Definition respects (R : relation RideDEventSink) {A} (m : M A) : Prop :=
  ∀ w, R (self w) (self (m w).1).

(** ** Effects of a call *)

(** The CoAP requests among some effects: destination, confirmable flag,
    path and payload of each, in order. *)
Definition put_requests (l : list effect)
    : list (string * Z * bool * string * string) :=
  omap (λ e, match e with
             | CoapPut dest cf path payload => Some (dest, cf, path, payload)
             | _ => None
             end) l.

(** The events encoded among some effects. *)
Definition encodings (l : list effect) : list Event :=
  omap (λ e, match e with EncodeEvent ev => Some ev | _ => None end) l.

(** The request [send_event] makes for an event to one address. *)
Definition request_to w ev (address : string)
    : string * Z * bool * string * string :=
  ((address, port (self w)), confirmable_messages (coap_client (self w)),
   "/events/" +:+ topic ev, encode_event ev).

(** The state of the connection after requests to [addrs] that all return
    normally; [None] as soon as one raises. *)
Fixpoint deliver (c : CoapConn) (port : Z) (path payload : string)
    (addrs : list string) : option CoapConn :=
  match addrs with
  | [] => Some c
  | a :: addrs' =>
      match coap_put c (a, port) path payload with
      | (c', Ok _) => deliver c' port path payload addrs'
      | (_, Raise _) => None
      end
  end.

(** Validation of a subscriber fails: its address does not resolve to a
    node, or no path from the node to the server is found. *)
Definition no_route_to_server (r : RideD) (host : string) : Prop :=
  (∃ e, (get_host_by_ip r host).2 = Raise e)
  ∨ (∃ r1 node e, get_host_by_ip r host = (r1, Ok node)
                  ∧ (get_path r1 node (rided_dpid r1)).2 = Raise e).

Definition built (s : RideDEventSink) : Prop := ∃ r, rided s = RidedBuilt r.

(** Once built, the middleware stays. *)
Definition stays_built : relation RideDEventSink := λ s s', built s → built s'.

End Vocabulary.

(** ** A test double for the collaborators

    A small simulated network: RIDE-D knows which IP addresses resolve to
    which nodes, which nodes have a path to the server, and which topics have
    a multicast tree; the CoAP client raises [socket.error] for the
    destinations listed as down. *)
Module Fake.

Record FakeRideD := {
  fk_dpid : string;
  fk_hosts : list (string * string);
  fk_connected : list string;
  fk_trees : list (string * string);
  fk_lookup_error : exn_class;
  fk_subscribers : list (string * string);
  fk_routes : list (string * list string)
}.

Definition assoc (k : string) (l : list (string * string)) : option string :=
  (λ found, snd (snd found)) <$> list_find (λ p, fst p = k) l.

Definition fake_get_host_by_ip (r : FakeRideD) (ip : string)
    : FakeRideD * result string :=
  match assoc ip (fk_hosts r) with
  | Some n => (r, Ok n)
  | None => (r, Raise (Exn KeyError ip))
  end.

Definition fake_get_path (r : FakeRideD) (a b : string)
    : FakeRideD * result (list string) :=
  if bool_decide (a ∈ fk_connected r) then (r, Ok [a; b])
  else (r, Raise (Exn NetworkXNoPath a)).

Definition fake_get_best_multicast_address (r : FakeRideD) (t : string)
    : FakeRideD * result string :=
  match assoc t (fk_trees r) with
  | Some a => (r, Ok a)
  | None => (r, Raise (Exn (fk_lookup_error r) t))
  end.

Definition fake_add_subscriber (r : FakeRideD) (n t : string)
    : FakeRideD * result unit :=
  ({| fk_dpid := fk_dpid r; fk_hosts := fk_hosts r;
      fk_connected := fk_connected r; fk_trees := fk_trees r;
      fk_lookup_error := fk_lookup_error r;
      fk_subscribers := (n, t) :: fk_subscribers r;
      fk_routes := fk_routes r |}, Ok tt).

Definition fake_set_publisher_route (r : FakeRideD) (p : string)
    (route : list string) : FakeRideD * result unit :=
  ({| fk_dpid := fk_dpid r; fk_hosts := fk_hosts r;
      fk_connected := fk_connected r; fk_trees := fk_trees r;
      fk_lookup_error := fk_lookup_error r;
      fk_subscribers := fk_subscribers r;
      fk_routes := (p, route) :: fk_routes r |}, Ok tt).

Definition fake_coap_put (down : list string) (dest : string * Z)
    (path payload : string) : list string * result unit :=
  if bool_decide (fst dest ∈ down) then
    (down, Raise (Exn socket_error "Network is unreachable"))
  else (down, Ok tt).

Definition externals (network : FakeRideD) (down : list string)
    : Externals := {|
  Node := string;
  Route := list string;
  FlowRule := string;
  RideD := FakeRideD;
  CoapConn := list string;
  Response := Z;
  SEISMIC_ALERT_TOPIC := "seismic_alert";
  SEISMIC_PICK_TOPIC := "seismic";
  SUBSCRIPTION_API_PATH := "/subscriptions/%s";
  get_hostname_from_path := λ s, Some s;
  RideD_new := λ _, Ok network;
  rided_dpid := fk_dpid;
  rided_update := λ r, (r, Ok tt);
  get_best_multicast_address := fake_get_best_multicast_address;
  add_subscriber := fake_add_subscriber;
  notify_publication := λ r _ _, (r, Ok tt);
  set_publisher_route := fake_set_publisher_route;
  get_host_by_ip := fake_get_host_by_ip;
  get_path := fake_get_path;
  build_flow_rules_from_path := λ r route, (r, Ok route);
  install_flow_rule := λ r _, (r, Ok tt);
  encode_event := λ ev, topic ev +:+ ":" +:+ data ev;
  CoapClient_new := λ _ _ _, Ok down;
  coap_put := fake_coap_put;
  coap_response_success := λ code, bool_decide (64 ≤ code < 96)%Z;
  response_code := λ code, code;
  NOT_FOUND_number := 132;
  set_iter := elements;
  set_iter_perm := λ s, reflexivity (elements s)
|}.

Definition net : FakeRideD :=
  {| fk_dpid := "s0";
     fk_hosts := [("10.0.0.2", "h2"); ("10.0.0.3", "h3"); ("10.0.0.9", "h9")];
     fk_connected := ["h2"; "h3"; "p1"];
     fk_trees := [];
     fk_lookup_error := KeyError;
     fk_subscribers := [];
     fk_routes := [] |}.

(** The same network with a middleware whose lookups fail with IOError. *)
Definition net_io : FakeRideD :=
  {| fk_dpid := "s0";
     fk_hosts := fk_hosts net;
     fk_connected := fk_connected net;
     fk_trees := [];
     fk_lookup_error := IOError;
     fk_subscribers := [];
     fk_routes := [] |}.

Definition args (multicast : bool) : @InitArgs (externals net []) :=
  @Build_InitArgs (externals net [])
    "s0" ["224.0.0.1"] "onos" 2 "importance" ["red-blue"]
    (Some ["p1"; "p2"]) 2 multicast 5683 ["seismic_alert"].

End Fake.

(** ** Scenarios on the simulated network *)

Module Scenario.
Import Fake.

(** The two subscribers and the alert of the examples. *)
Definition alert : Event :=
  {| topic := "seismic_alert"; data := "P"; source := "server";
     is_local := true |}.

(** The sink of the examples: port 5683, two known publishers, the alert
    topic to sink, on a transport for which the destinations [down] are
    unreachable. *)
Definition sink (down : list string) (subs : gmap string (gset string))
    (multicast : bool) (slot : @rided_slot (externals net down))
    : @RideDEventSink (externals net down) :=
  @Build_RideDEventSink (externals net down)
    subs 5683 (list_to_set ["seismic_alert"]) 2 multicast slot
    (Some ["p1"; "p2"])
    (@Build_CoapClient (externals net down)
       ("224.0.0.1", 5683%Z) (negb multicast) down).

(** A sink configured for unicast, right after [__init__]. *)
Definition unicast0 : @World (externals net []) :=
  @Build_World (externals net []) (sink [] ∅ false RidedNone) [].

(** The same sink with one subscription processed. *)
Definition unicast1 : @World (externals net []) :=
  (process_subscription "seismic_alert" "10.0.0.2" unicast0).1.

(** A sink configured for multicast, right after [__init__]: the keyword
    arguments of RideD are stored, the middleware is not built yet. *)
Definition multicast_init : @World (externals net []) :=
  @Build_World (externals net [])
    (sink [] ∅ true
       (@RidedDict (externals net [])
          (Build_rided_kwargs string "onos" "s0" ["224.0.0.1"] 2 "importance"
             ["red-blue"]))) [].

(** A unicast sink with subscribers 10.0.0.2 and 10.0.0.3. *)
Definition unicast2 (down : list string) : @World (externals net down) :=
  @Build_World (externals net down)
    (sink down {[ "seismic_alert" := {[ "10.0.0.2"; "10.0.0.3" ]} ]}
       false RidedNone) [].

(** A sink configured for multicast whose middleware [r] is built; no
    multicast tree exists, and 10.0.0.9 resolves to a node with no path to the
    server. *)
Definition multicast0 (r : FakeRideD) : @World (externals net []) :=
  @Build_World (externals net [])
    (sink [] ∅ true (@RidedBuilt (externals net []) r)) [].

End Scenario.

(** * Vocabulary of the further properties *)

Section FurtherVocabulary.
Context `{E : Externals}.

(** What [__init__] has set for good: the port, the topics to sink, the
    mode, the publishers, the maintenance interval, whether the CoAP client
    sends confirmable messages, and whether [self.rided] is [None]. *)
Definition same_config : relation RideDEventSink := λ s s',
  port s' = port s
  ∧ topics_to_sink s' = topics_to_sink s
  ∧ use_multicast s' = use_multicast s
  ∧ publishers s' = publishers s
  ∧ maintenance_interval s' = maintenance_interval s
  ∧ confirmable_messages (coap_client s') = confirmable_messages (coap_client s)
  ∧ is_not_None (rided s') = is_not_None (rided s).

(** The mode the sink was built for shows in its parts: [self.rided] is
    [None] exactly in unicast mode, and the CoAP client sends confirmable
    messages exactly in unicast mode. *)
Definition mode_consistent (s : RideDEventSink) : Prop :=
  is_not_None (rided s) = use_multicast s
  ∧ confirmable_messages (coap_client s) = negb (use_multicast s).

(** The registry of [s'] has every entry of the registry of [s]. *)
Definition registry_grows : relation RideDEventSink := λ s s',
  ∀ t h, registered (subscribers s) t h → registered (subscribers s') t h.

(** Validation of a subscriber goes through: the address resolves, a path
    to the server is found and RIDE-D takes the subscriber for the alert
    topic. *)
Definition validated (r : RideD) (host : string) : Prop :=
  ∃ r1 node r2 route r3,
    get_host_by_ip r host = (r1, Ok node)
    ∧ get_path r1 node (rided_dpid r1) = (r2, Ok route)
    ∧ add_subscriber r2 node SEISMIC_ALERT_TOPIC = (r3, Ok ()).

(** The calls into RIDE-D among some effects that report a publication. *)
Definition notifications (l : list effect) : list (string * string) :=
  omap (λ e, match e with
             | Call_notify_publication p id_type => Some (p, id_type)
             | _ => None
             end) l.

End FurtherVocabulary.

(** * SeismicAlertSubscriber: [seismic_alert_subscriber.py]

    The subscriber keeps, for every pick it has received in an alert, the
    pick with the time of its first receipt and the number of copies
    received. *)

Module Subscriber.

(** The exception classes [on_event] can meet. *)
Inductive error :=
| AssertionError | AttributeError | TypeError | KeyError | ValueError.

(** [except (ValueError, KeyError)] *)
Definition caught (e : error) : bool :=
  match e with
  | ValueError | KeyError => true
  | _ => false
  end.

(** The values under the keys of a pick: a reading of the clock, an
    integer, or any other value. *)
Inductive value (Timestamp Datum : Type) :=
| VTime (t : Timestamp)
| VInt (n : Z)
| VData (d : Datum).
Arguments VTime {Timestamp Datum} t.
Arguments VInt {Timestamp Datum} n.
Arguments VData {Timestamp Datum} d.

(** A value of [event.data]: a pick, which is a dict, or anything else. *)
Inductive item (Timestamp Datum : Type) :=
| ItemDict (pick : gmap string (value Timestamp Datum))
| ItemOther.
Arguments ItemDict {Timestamp Datum} pick.
Arguments ItemOther {Timestamp Datum}.

(** What the module takes from outside: the clock ([time_time n] is what
    the call number [n] of [time.time()] returns), [+ 1] on values that are
    no integers, the order in which the items of a dict are gone through,
    and the alert topic of [seismic_alert_common]. *)
Class Env := {
  Timestamp : Type;
  Datum : Type;
  SEISMIC_ALERT_TOPIC : string;
  time_time : nat → Timestamp;
  add_one_other : value Timestamp Datum → value Timestamp Datum + error;
  dict_items : gmap string (item Timestamp Datum)
               → list (string * item Timestamp Datum);
  dict_items_perm : ∀ d, dict_items d ≡ₚ map_to_list d
}.

Section Model.
Context `{V : Env}.

(** A SensedEvent as [on_event] reads it; [data] is [None] for a value
    without [items()].  The picks of an alert are dicts of their own, as the
    decoding of a received alert makes them: [on_event] stores the dict it is
    given, and no dict is under two ids or in two alerts. *)
Record AlertEvent := {
  topic : string;
  data : option (gmap string (item Timestamp Datum))
}.

(** The subscriber object, the number of readings of the clock so far, and
    the log records written. *)
Record World := {
  events_rcvd : gmap string (gmap string (value Timestamp Datum));
  ticks : nat;
  logged : list (level * string)
}.

(** [__init__]: nothing received yet. *)
Definition initial : World :=
  {| events_rcvd := ∅; ticks := 0; logged := [] |}.

Definition log (lvl : level) (fmt : string) (w : World) : World :=
  {| events_rcvd := events_rcvd w; ticks := ticks w;
     logged := logged w ++ [(lvl, fmt)] |}.

(** [v + 1] *)
Definition add_one (v : value Timestamp Datum)
    : value Timestamp Datum + error :=
  match v with
  | VInt n => inl (VInt (n + 1))
  | _ => add_one_other v
  end.

(** The body of the loop of [on_event] for one item of [event.data]. *)
Definition receive (ev_id : string) (ev : item Timestamp Datum) (w : World)
    : World * option error :=
  match events_rcvd w !! ev_id with
  | None =>
      let now := time_time (ticks w) in
      let w := {| events_rcvd := events_rcvd w; ticks := S (ticks w);
                  logged := logged w |} in
      match ev with
      | ItemOther => (w, Some TypeError)
      | ItemDict ev =>
          let ev := <["time_rcvd" := VTime now]> ev in
          let ev := <["copies_rcvd" := VInt 1]> ev in
          ({| events_rcvd := <[ev_id := ev]> (events_rcvd w);
              ticks := ticks w; logged := logged w |}, None)
      end
  | Some stored =>
      match stored !! "copies_rcvd" with
      | None => (w, Some KeyError)
      | Some copies =>
          match add_one copies with
          | inl copies =>
              ({| events_rcvd :=
                    <[ev_id := <["copies_rcvd" := copies]> stored]>
                      (events_rcvd w);
                  ticks := ticks w; logged := logged w |}, None)
          | inr e => (w, Some e)
          end
      end
  end.

(** [for ev_id, ev in event.data.items(): ...] *)
Fixpoint receive_all (items : list (string * item Timestamp Datum))
    (w : World) : World * option error :=
  match items with
  | [] => (w, None)
  | (ev_id, ev) :: items' =>
      match receive ev_id ev w with
      | (w', None) => receive_all items' w'
      | (w', Some e) => (w', Some e)
      end
  end.

(** [on_event(event, topic)]: the world after the call, and the exception
    it raised if any. *)
Definition on_event (event : AlertEvent) (topic_arg : option string)
    (w : World) : World * option error :=
  let topic := match topic_arg with None => topic event | Some t => t end in
  if negb (String.eqb topic SEISMIC_ALERT_TOPIC) then (w, Some AssertionError)
  else
    let w := log DEBUG "processing alert: %s" w in
    match data event with
    | None => (w, Some AttributeError)
    | Some d =>
        match receive_all (dict_items d) w with
        | (w', None) => (w', None)
        | (w', Some e) =>
            if caught e then
              (log ERROR "Malformed seismic alert? err: %s" w', None)
            else (w', Some e)
        end
    end.

(** ** Vocabulary *)

(** The number of copies recorded for a pick. *)
Definition copies (w : World) (ev_id : string) : option Z :=
  match events_rcvd w !! ev_id with
  | Some stored =>
      match stored !! "copies_rcvd" with
      | Some (VInt n) => Some n
      | _ => None
      end
  | None => None
  end.

(** An alert as the server sends them: the alert topic (as argument, or as
    the topic of the event), and a dict of picks as data. *)
Definition well_formed (alert : AlertEvent * option string) : Prop :=
  match alert.2 with None => topic alert.1 | Some t => t end
  = SEISMIC_ALERT_TOPIC
  ∧ ∃ d, data alert.1 = Some d
         ∧ ∀ ev_id it, d !! ev_id = Some it → ∃ p, it = ItemDict p.

(** The alert has a pick with this id. *)
Definition carries (ev_id : string) (alert : AlertEvent * option string)
    : bool :=
  match data alert.1 with
  | Some d => bool_decide (is_Some (d !! ev_id))
  | None => false
  end.

(** The alerts received one after the other; an alert whose handling
    raises is followed by the next one all the same. *)
Definition receive_alerts (alerts : list (AlertEvent * option string))
    (w : World) : World :=
  foldl (λ w alert, (on_event alert.1 alert.2 w).1) w alerts.

(** Every stored pick has an integer under [copies_rcvd]. *)
Definition counted (w : World) : Prop :=
  ∀ ev_id stored, events_rcvd w !! ev_id = Some stored →
    ∃ n, stored !! "copies_rcvd" = Some (VInt n).

(** The number of alerts that carry a pick with this id. *)
Definition occurrences (ev_id : string) (alerts : list (AlertEvent * option string)) : Z :=
  Z.of_nat (length (List.filter (carries ev_id) alerts)).

(** The stored pick [stored'] is [stored] up to its [copies_rcvd]. *)
Definition same_but_copies
    (stored stored' : gmap string (value Timestamp Datum)) : Prop :=
  ∀ k, k ≠ "copies_rcvd" → stored' !! k = stored !! k.

(** Every pick stored in [w] is in [w'] too, up to its [copies_rcvd]. *)
Definition keeps_first_copies (w w' : World) : Prop :=
  ∀ ev_id stored, events_rcvd w !! ev_id = Some stored →
    ∃ stored', events_rcvd w' !! ev_id = Some stored'
               ∧ same_but_copies stored stored'.

End Model.
End Subscriber.

(** * SeismicServer: [seismic_server.py]

    The server collects the picks it receives as JSON datagrams and, at
    every tick of a timer, forwards the ones collected since the last tick
    in one datagram.  The methods are taken one call at a time: a
    [send_events] on the timer's thread that runs while [handle_read] is
    appending is outside the model. *)

Module Server.

(** What the module takes from outside: decoded JSON values with
    [json.loads] ([None] for ValueError) and [json.dumps], applied to the
    dict of the aggregated events; the UDP socket, whose [sendto] and [recv]
    may raise; the type of the delays given on the command line. *)
Class Env := {
  Json : Type;
  Seconds : Type;
  Sock : Type;
  json_loads : string → option Json;
  json_dumps_aggregate : list Json → string;
  sock_sendto : Sock → string → string * Z → Sock * option exn
}.

Section Model.
Context `{V : Env}.

(** The options of [parse_args]. *)
Record Config := {
  delay : Seconds;
  quit_time : Seconds;
  port : Z;
  address : string
}.

Inductive effect :=
| TimerStart (interval : Seconds) (callback : string)
| CreateSocket
| Bind (host : string) (port : Z)
| Sendto (datagram : string) (dest : string * Z)
| Print (fmt : string).

Record World := {
  config : Config;
  events_rcvd : list Json;
  sock : Sock;
  out : list effect
}.

(** [__init__] on a fresh socket. *)
Definition init (cfg : Config) (s : Sock) : World :=
  {| config := cfg; events_rcvd := []; sock := s;
     out := [TimerStart (delay cfg) "send_events"; CreateSocket;
             Bind "" (port cfg); TimerStart (quit_time cfg) "close"] |}.

Definition emit (e : effect) (w : World) : World :=
  {| config := config w; events_rcvd := events_rcvd w; sock := sock w;
     out := out w ++ [e] |}.

(** [send_events] *)
Definition send_events (w : World) : World * option exn :=
  let sent :=
    if bool_decide (0 < length (events_rcvd w)) then
      let datagram := json_dumps_aggregate (events_rcvd w) in
      let dest := (address (config w), port (config w)) in
      let '(s, raised) := sock_sendto (sock w) datagram dest in
      let w := {| config := config w; events_rcvd := events_rcvd w;
                  sock := s; out := out w ++ [Sendto datagram dest] |} in
      match raised with
      | Some e => (w, Some e)
      | None =>
          ({| config := config w; events_rcvd := []; sock := sock w;
              out := out w |}, None)
      end
    else (w, None) in
  match sent with
  | (w, Some e) => (w, Some e)
  | (w, None) => (emit (TimerStart (delay (config w)) "send_events") w, None)
  end.

(** [handle_read], given what [self.recv(4096)] returns or raises. *)
Definition handle_read (received : string + exn) (w : World)
    : World * option exn :=
  match received with
  | inr e => (w, Some e)
  | inl data =>
      match json_loads data with
      | Some event =>
          let w := emit (Print "received event %s") w in
          ({| config := config w; events_rcvd := events_rcvd w ++ [event];
              sock := sock w; out := out w |}, None)
      | None => (emit (Print "Error parsing JSON from %s") w, None)
      end
  end.

(** ** Vocabulary *)

(** The datagrams read one after the other. *)
Definition read_all (datagrams : list string) (w : World) : World :=
  foldl (λ w data, (handle_read (inl data) w).1) w datagrams.

(** The datagrams sent among some effects. *)
Definition sent (l : list effect) : list (string * (string * Z)) :=
  omap (λ e, match e with
             | Sendto datagram dest => Some (datagram, dest)
             | _ => None
             end) l.

(** The timers started among some effects. *)
Definition timers (l : list effect) : list string :=
  omap (λ e, match e with
             | TimerStart _ callback => Some callback
             | _ => None
             end) l.

End Model.
End Server.

(** ** Further scenarios *)

Module FurtherScenario.
Import Fake Scenario.

(** The network of the examples with a multicast tree for the alert
    topic. *)
Definition net_tree : FakeRideD :=
  {| fk_dpid := "s0";
     fk_hosts := fk_hosts net;
     fk_connected := fk_connected net;
     fk_trees := [("seismic_alert", "224.0.0.7")];
     fk_lookup_error := KeyError;
     fk_subscribers := [];
     fk_routes := [] |}.

(** Arguments of [__init__] for multicast that name no publishers. *)
Definition args_no_publishers : @InitArgs (externals net []) :=
  @Build_InitArgs (externals net [])
    "s0" ["224.0.0.1"] "onos" 2 "importance" ["red-blue"]
    None 2 true 5683 ["seismic_alert"].

(** The sink [__init__] makes of them. *)
Definition multicast_no_publishers : @World (externals net []) :=
  @Build_World (externals net [])
    (@Build_RideDEventSink (externals net [])
       ∅ 5683 (list_to_set ["seismic_alert"]) 2 true
       (@RidedDict (externals net [])
          (Build_rided_kwargs string "onos" "s0" ["224.0.0.1"] 2 "importance"
             ["red-blue"]))
       None
       (@Build_CoapClient (externals net []) ("224.0.0.1", 5683%Z) false []))
    [].

(** A subscriber whose clock starts at 1000, with dicts gone through in the
    order of their keys. *)
Definition subscriber_env : Subscriber.Env :=
  {| Subscriber.Timestamp := nat;
     Subscriber.Datum := string;
     Subscriber.SEISMIC_ALERT_TOPIC := "seismic_alert";
     Subscriber.time_time := λ n, 1000 + n;
     Subscriber.add_one_other := λ _, inr Subscriber.TypeError;
     Subscriber.dict_items := map_to_list;
     Subscriber.dict_items_perm := λ d, reflexivity (map_to_list d) |}.

(** Two alerts: the first carries pick a, the second picks a and b. *)
Definition pick (magnitude : string)
    : gmap string (Subscriber.value nat string) :=
  {[ "magnitude" := Subscriber.VData magnitude ]}.

Definition alert_a : @Subscriber.AlertEvent subscriber_env * option string :=
  (@Subscriber.Build_AlertEvent subscriber_env "seismic_alert"
     (Some {[ "a" := Subscriber.ItemDict (pick "4.2") ]}), None).

Definition alert_ab : @Subscriber.AlertEvent subscriber_env * option string :=
  (@Subscriber.Build_AlertEvent subscriber_env "seismic_alert"
     (Some (<[ "a" := Subscriber.ItemDict (pick "4.3") ]>
              {[ "b" := Subscriber.ItemDict (pick "3.1") ]})), None).

(** A server whose JSON values are the texts that start with a brace, and
    whose socket is up or down. *)
Definition server_env : Server.Env :=
  {| Server.Json := string;
     Server.Seconds := Z;
     Server.Sock := bool;
     Server.json_loads := λ data,
       if String.prefix "{" data then Some data else None;
     Server.json_dumps_aggregate := λ events, String.concat "," events;
     Server.sock_sendto := λ up datagram dest,
       (up, if up then None
            else Some (Exn socket_error "Network is unreachable")) |}.

Definition server_config : @Server.Config server_env :=
  @Server.Build_Config server_env 5%Z 30%Z 9999%Z "127.0.0.1".

End FurtherScenario.

(** * Properties *)

(** ** The subscriber registry *)

Section Registry.
Context `{E : Externals}.
Implicit Types (d : gmap string (gset string)) (t h : string).

Lemma registry_add_unfold t h d :
  registry_add t h d = <[t := default ∅ (d !! t) ∪ {[h]}]> d.
Proof.
  unfold registry_add, setdefault. destruct (d !! t) eqn:Hd; simpl; [done|].
  by rewrite insert_insert_eq.
Qed.

Lemma lookup_registry_add t h d :
  registry_add t h d !! t = Some (default ∅ (d !! t) ∪ {[h]}).
Proof. by rewrite registry_add_unfold, lookup_insert_eq. Qed.

Lemma lookup_registry_add_ne t t' h d :
  t ≠ t' → registry_add t h d !! t' = d !! t'.
Proof. intros. by rewrite registry_add_unfold, lookup_insert_ne. Qed.

Lemma registered_registry_add t h d : registered (registry_add t h d) t h.
Proof.
  eexists. split; [apply lookup_registry_add|]. set_solver.
Qed.

Lemma registered_registry_add_iff t h t' h' d :
  registered (registry_add t h d) t' h' ↔
  (t' = t ∧ h' = h) ∨ registered d t' h'.
Proof.
  unfold registered. destruct (decide (t = t')) as [<-|Hne].
  - rewrite lookup_registry_add. split.
    + intros (hosts & [= <-] & Hin).
      apply elem_of_union in Hin as [Hin|Hin].
      * right. destruct (d !! t) as [s|] eqn:Hd; simpl in Hin; [eauto|].
        set_solver.
      * left. set_solver.
    + intros [[_ ->]|(hosts & Hd & Hin)]; eexists; (split; [done|]).
      * set_solver.
      * rewrite Hd. set_solver.
  - rewrite lookup_registry_add_ne by done. naive_solver.
Qed.

Lemma registry_add_present t h d :
  registered d t h → registry_add t h d = d.
Proof.
  intros (hosts & Hd & Hin). rewrite registry_add_unfold, Hd. simpl.
  apply insert_id. rewrite Hd. f_equal. set_solver.
Qed.

Lemma keys_inhabited_empty : keys_inhabited ∅.
Proof. intros t hosts. by rewrite lookup_empty. Qed.

Lemma keys_inhabited_registry_add t h d :
  keys_inhabited d → keys_inhabited (registry_add t h d).
Proof.
  intros Hd t' hosts. destruct (decide (t = t')) as [<-|Hne].
  - rewrite lookup_registry_add. intros [= <-]. set_solver.
  - rewrite lookup_registry_add_ne by done. apply Hd.
Qed.

Lemma set_iter_elem_of (s : gset string) h : h ∈ set_iter s ↔ h ∈ s.
Proof. by rewrite set_iter_perm, elem_of_elements. Qed.

Lemma set_iter_NoDup (s : gset string) : NoDup (set_iter s).
Proof. rewrite set_iter_perm. apply NoDup_elements. Qed.

(** A set of two hosts is gone through in one of the two orders. *)
Lemma set_iter_pair (A B : string) :
  A ≠ B → set_iter {[A; B]} = [A; B] ∨ set_iter {[A; B]} = [B; A].
Proof.
  intros Hne. apply Permutation_length_2_inv. symmetry.
  apply NoDup_Permutation.
  - apply set_iter_NoDup.
  - apply NoDup_cons. split; [set_solver|]. apply NoDup_singleton.
  - intros x. rewrite set_iter_elem_of. set_solver.
Qed.

Lemma elem_of_registry_entries d t h :
  (t, h) ∈ registry_entries d ↔ registered d t h.
Proof.
  unfold registry_entries, registered. rewrite list_elem_of_bind. split.
  - intros ([t' hosts] & Hin & Hitem). simpl in Hin.
    apply list_elem_of_fmap in Hin as (h' & [= -> ->] & Hh').
    exists hosts. split; [by apply elem_of_map_to_list|].
    by apply set_iter_elem_of.
  - intros (hosts & Hd & Hin). exists (t, hosts). split.
    + simpl. apply list_elem_of_fmap. exists h. split; [done|].
      by apply set_iter_elem_of.
    + by apply elem_of_map_to_list.
Qed.

Lemma registry_entries_NoDup d : NoDup (registry_entries d).
Proof.
  unfold registry_entries. apply NoDup_bind.
  - intros [t1 s1] [t2 s2] [t h] Hi1 Hi2 H1 H2. simpl in *.
    apply list_elem_of_fmap in H1 as (h1 & [= -> ->] & _).
    apply list_elem_of_fmap in H2 as (h2 & [= -> ->] & _).
    apply elem_of_map_to_list in Hi1, Hi2. congruence.
  - intros [t s] _. simpl. apply NoDup_fmap_2; [|apply set_iter_NoDup].
    by intros ?? [= ->].
  - apply NoDup_map_to_list.
Qed.

End Registry.

(** ** Reasoning about methods *)

Ltac unfold_monad :=
  unfold mbind, M_bind, bind, mret, M_ret, ret, raise, try_except, get,
    modify, log, emit, assert in *.

Section Respects.
Context `{E : Externals}.

Context (R : relation RideDEventSink) `{!PreOrder R}.

Lemma respects_ret {A} (a : A) : respects R (mret a).
Proof. intros w. reflexivity. Qed.

Lemma respects_raise {A} e : respects R (raise (A:=A) e).
Proof. intros w. reflexivity. Qed.

Lemma respects_get : respects R get.
Proof. intros w. reflexivity. Qed.

Lemma respects_emit e : respects R (emit e).
Proof. intros w. reflexivity. Qed.

Lemma respects_log lvl fmt : respects R (log lvl fmt).
Proof. apply respects_emit. Qed.

Lemma respects_assert c msg : respects R (assert c msg).
Proof. intros w. destruct c; reflexivity. Qed.

Lemma respects_read_dpid : respects R read_dpid.
Proof. intros w. unfold read_dpid. destruct (rided (self w)); reflexivity. Qed.

Lemma respects_modify f : (∀ s, R s (f s)) → respects R (modify f).
Proof. intros Hf w. apply Hf. Qed.

Lemma respects_bind {A B} (m : M A) (k : A → M B) :
  respects R m → (∀ a, respects R (k a)) → respects R (m ≫= k).
Proof.
  intros Hm Hk w. unfold_monad. specialize (Hm w).
  destruct (m w) as [w' [a|e]]; simpl in *; [|done].
  etrans; [exact Hm|apply Hk].
Qed.

Lemma respects_try_except {A} (body : M A) catches handler :
  respects R body → (∀ e, respects R (handler e)) →
  respects R (try_except body catches handler).
Proof.
  intros Hm Hk w. unfold_monad. specialize (Hm w).
  destruct (body w) as [w' [a|e]]; simpl in *; [done|].
  destruct (catches e); [|done]. etrans; [exact Hm|apply Hk].
Qed.

Lemma respects_for_ {A} (l : list A) (f : A → M unit) :
  (∀ a, respects R (f a)) → respects R (for_ l f).
Proof.
  intros Hf. induction l as [|a l IH]; simpl.
  - apply respects_ret.
  - apply respects_bind; auto.
Qed.

(** What [R] has to allow: a call into the built middleware, and a request
    through the CoAP client. *)
Hypothesis R_rided : ∀ s r r',
  rided s = RidedBuilt r → R s (set_rided (RidedBuilt r') s).
Hypothesis R_coap_client : ∀ s c, R s (set_coap_client c s).

Lemma respects_with_rided {A} call (op : RideD → RideD * result A) :
  respects R (with_rided call op).
Proof.
  intros w. unfold with_rided.
  destruct (rided (self w)) as [| |r] eqn:Hr; try reflexivity.
  destruct (op r) as [r' res]. simpl. by eapply R_rided.
Qed.

Lemma respects_coap_client_put path payload :
  respects R (coap_client_put path payload).
Proof.
  intros w. unfold coap_client_put.
  destruct (coap_put _ _ _ _) as [c' res]. simpl. apply R_coap_client.
Qed.

Hint Resolve respects_ret respects_raise respects_get respects_emit
  respects_log respects_assert respects_read_dpid respects_with_rided
  respects_coap_client_put : core.

Ltac respects_step :=
  first
    [ apply respects_bind; [|intros ?]
    | apply respects_try_except; [|intros ?]
    | apply respects_for_; intros ?
    | apply respects_modify; intros ?
    | match goal with
      | |- respects _ (if ?c then _ else _) => destruct c
      | |- respects _ (match ?x with _ => _ end) => destruct x
      end
    | done ].

Lemma respects_maintain_topology : respects R __maintain_topology.
Proof. apply respects_with_rided. Qed.

Lemma respects_sendto msg t a p : respects R (__sendto msg t a p).
Proof. unfold __sendto. repeat respects_step. Qed.

Lemma respects_send_event ev : respects R (send_event ev).
Proof.
  unfold send_event. repeat respects_step.
Qed.

Lemma respects_on_event ev t : respects R (on_event ev t).
Proof. unfold on_event. repeat respects_step. Qed.

Lemma respects_validate_subscriber h : respects R (validate_subscriber h).
Proof. unfold validate_subscriber. repeat respects_step. Qed.

Lemma respects_install_route_rules pub : respects R (install_route_rules pub).
Proof. unfold install_route_rules. repeat respects_step. Qed.

Lemma respects_install_publisher_routes pubs :
  respects R (install_publisher_routes pubs).
Proof.
  unfold install_publisher_routes, install_publisher_route.
  repeat respects_step.
Qed.

Lemma respects_on_coap_ready : respects R __on_coap_ready.
Proof. unfold __on_coap_ready. repeat respects_step. Qed.

Lemma respects_check_available ev : respects R (check_available ev).
Proof. unfold check_available. repeat respects_step. Qed.

Lemma respects_on_stop : respects R on_stop.
Proof. unfold on_stop. repeat respects_step. Qed.

Lemma respects_put_event_callback resp : respects R (__put_event_callback resp).
Proof. unfold __put_event_callback. repeat respects_step. Qed.

(** [on_start] also replaces the stored keyword arguments by the middleware
    built from them. *)
Hypothesis R_build : ∀ s kw r,
  rided s = RidedDict kw → R s (set_rided (RidedBuilt r) s).

Lemma respects_on_start : respects R on_start.
Proof.
  intros w. unfold on_start. unfold_monad. simpl.
  destruct (rided (self w)) as [|kw|r] eqn:Hr; simpl; try reflexivity.
  destruct (RideD_new kw) as [r|e]; simpl; [|reflexivity].
  destruct (publishers (self w)) as [pubs|]; simpl.
  2: { by eapply R_build. }
  pose proof (respects_install_publisher_routes pubs
    {| self := set_rided (RidedBuilt r) (self w);
       out := (out w ++ [TimedCall (maintenance_interval (self w))
                           "__maintain_topology" true])
              ++ [Log INFO "setting static routes for publishers"] |}) as Hp.
  destruct (install_publisher_routes pubs _) as [w' [[]|e]]; simpl in *;
    (etrans; [by eapply R_build|exact Hp]).
Qed.

End Respects.

(** ** Reachable states of the sink *)

Section Reachable.
Context `{E : Externals}.

#[local] Instance same_registry_preorder : PreOrder same_registry.
Proof.
  split.
  - by intros s.
  - intros s1 s2 s3 H12 H23. unfold same_registry in *. congruence.
Qed.

Lemma init_registry a w : __init__ a = Ok w → subscribers (self w) = ∅.
Proof.
  unfold __init__. intros H.
  destruct (if negb (arg_multicast a) then _ else _) as [slot|e]; [|done].
  destruct (arg_addresses a) as [|a0 ?]; [done|].
  destruct (CoapClient_new _ _ _) as [c|e]; [|done].
  by injection H as <-.
Qed.

Lemma validate_subscriber_registry h w :
  subscribers (self (validate_subscriber h w).1) = subscribers (self w).
Proof. by apply (respects_validate_subscriber same_registry). Qed.

Lemma process_subscription_registry t h w :
  subscribers (self (process_subscription t h w).1)
  = registry_add t h (subscribers (self w)).
Proof.
  unfold process_subscription. unfold_monad. simpl.
  destruct (rided_truthy (rided (self w))); simpl; [|done].
  match goal with |- context [validate_subscriber h ?w0] =>
    pose proof (validate_subscriber_registry h w0) as Hv;
    destruct (validate_subscriber h w0) as [w' [[b|]|e]]
  end; simpl in *; exact Hv.
Qed.

Lemma process_coap_subscription_registry req w :
  let w' := (__process_coap_subscription req () w).1 in
  subscribers (self w') = subscribers (self w) ∨
  subscribers (self w')
  = registry_add (req_payload req) (req_source req).1 (subscribers (self w)).
Proof.
  unfold __process_coap_subscription. destruct (req_source req) as [host p].
  unfold_monad. simpl.
  destruct (String.eqb _ _); simpl; [|by left]. right.
  pose proof (process_subscription_registry (req_payload req) host w) as Hp.
  destruct (process_subscription _ _ w) as [w' [[]|e]]; exact Hp.
Qed.

(** The only entry points that change the registry are the two subscription
    paths, and they insert. *)
Lemma step_registry w w' :
  step w w' →
  subscribers (self w') = subscribers (self w) ∨
  ∃ t h, subscribers (self w') = registry_add t h (subscribers (self w)).
Proof.
  destruct 1.
  - left. by apply (respects_on_start same_registry).
  - left. by apply (respects_maintain_topology same_registry).
  - left. by apply (respects_on_coap_ready same_registry).
  - destruct (process_coap_subscription_registry req w); eauto.
  - right. eauto using process_subscription_registry.
  - left. by apply (respects_on_event same_registry).
  - left. by apply (respects_check_available same_registry).
  - left. by apply (respects_send_event same_registry).
  - left. by apply (respects_on_stop same_registry).
  - left. by apply (respects_put_event_callback same_registry).
Qed.

Lemma reachable_keys_inhabited w :
  reachable w → keys_inhabited (subscribers (self w)).
Proof.
  induction 1 as [a w Hinit|w w' _ IH Hstep].
  - rewrite (init_registry _ _ Hinit). apply keys_inhabited_empty.
  - destruct (step_registry _ _ Hstep) as [->|(t & h & ->)]; [done|].
    by apply keys_inhabited_registry_add.
Qed.

Lemma key_iff_registered (d : gmap string (gset string)) t :
  keys_inhabited d → is_Some (d !! t) ↔ ∃ h, registered d t h.
Proof.
  intros Hd. split.
  - intros [hosts Ht]. destruct (set_choose_L hosts) as [h Hh]; [by eapply Hd|].
    exists h, hosts. done.
  - intros (h & hosts & Ht & _). by exists hosts.
Qed.

End Reachable.

(** ** What a call does *)

Section Runs.
Context `{E : Externals}.
Implicit Types (w : World) (t h : string) (ev : Event).

#[local] Instance stays_built_preorder : PreOrder stays_built.
Proof. split; unfold stays_built; [by intros s|intros s1 s2 s3; tauto]. Qed.

Lemma install_route_rules_built pub w :
  built (self w) → built (self (install_route_rules pub w).1).
Proof.
  apply (respects_install_route_rules stays_built).
  intros s r r' _ _. by exists r'.
Qed.

Lemma for_app {A} (l1 l2 : list A) (f : A → M unit) w :
  for_ (l1 ++ l2) f w
  = match for_ l1 f w with
    | (w1, Ok _) => for_ l2 f w1
    | (w1, Raise e) => (w1, Raise e)
    end.
Proof.
  revert w. induction l1 as [|a l1 IH]; intros w; simpl; [done|].
  unfold_monad. destruct (f a w) as [w1 [[]|e]]; [apply IH|done].
Qed.

Lemma sendto_run msg t a w :
  __sendto msg t a None w
  = let c := coap_client (self w) in
    let dest := (a, port (self w)) in
    let path := "/events/" +:+ t in
    let put := coap_put (conn c) dest path msg in
    let s' := set_coap_client
                {| server := dest;
                   confirmable_messages := confirmable_messages c;
                   conn := put.1 |} (self w) in
    let req := CoapPut dest (confirmable_messages c) path msg in
    match put.2 with
    | Ok _ =>
        ({| self := s';
            out := out w ++ [req; Log DEBUG
                     "RIDE-D message sent: topic=%s ; address=%s"] |}, Ok tt)
    | Raise e => ({| self := s'; out := out w ++ [req] |}, Raise e)
    end.
Proof.
  unfold __sendto, coap_client_put. unfold_monad. simpl.
  destruct (coap_put _ _ _ _) as [c' [[]|e]]; simpl; [|done].
  by rewrite <- app_assoc.
Qed.

Lemma put_requests_app l1 l2 :
  put_requests (l1 ++ l2) = put_requests l1 ++ put_requests l2.
Proof. apply omap_app. Qed.

(** The unicast loop when every request returns normally. *)
Lemma unicast_loop_ok msg t addrs : ∀ w c',
  deliver (conn (coap_client (self w))) (port (self w)) ("/events/" +:+ t) msg
    addrs = Some c' →
  ∃ w' l,
    for_ addrs (λ a, __sendto msg t a None) w = (w', Ok tt)
    ∧ out w' = out w ++ l
    ∧ put_requests l
      = (λ a, ((a, port (self w)), confirmable_messages (coap_client (self w)),
               "/events/" +:+ t, msg)) <$> addrs
    ∧ encodings l = []
    ∧ conn (coap_client (self w')) = c'
    ∧ port (self w') = port (self w)
    ∧ confirmable_messages (coap_client (self w'))
      = confirmable_messages (coap_client (self w)).
Proof.
  induction addrs as [|a addrs IH]; intros w c' Hd; simpl in Hd.
  - injection Hd as <-. exists w, []. simpl. by rewrite app_nil_r.
  - simpl. unfold_monad. rewrite sendto_run. simpl.
    destruct (coap_put _ _ _ _) as [c1 [[]|e]] eqn:Hput; simpl; [|done].
    match goal with |- context [for_ addrs _ ?w1] =>
      destruct (IH w1 c' Hd) as (w' & l & -> & Hout & Hreq & Henc & ? & ? & ?)
    end. simpl in *.
    eexists w', (_ :: _ :: l). split_and!; try done.
    + by rewrite Hout, <- app_assoc.
    + simpl. by rewrite Hreq.
    + exact Henc.
Qed.

(** The unicast loop when the request to [a] raises after those to [pre]
    returned normally: the loop ends there, with the exception. *)
Lemma unicast_loop_abort msg t pre a post w c1 e :
  deliver (conn (coap_client (self w))) (port (self w)) ("/events/" +:+ t) msg
    pre = Some c1 →
  (coap_put c1 (a, port (self w)) ("/events/" +:+ t) msg).2 = Raise e →
  ∃ w' l,
    for_ (pre ++ a :: post) (λ a, __sendto msg t a None) w = (w', Raise e)
    ∧ out w' = out w ++ l
    ∧ put_requests l
      = (λ a, ((a, port (self w)), confirmable_messages (coap_client (self w)),
               "/events/" +:+ t, msg)) <$> (pre ++ [a])
    ∧ encodings l = [].
Proof.
  intros Hd Hput. rewrite for_app.
  destruct (unicast_loop_ok msg t pre w c1 Hd)
    as (w1 & l & -> & Hout & Hreq & Henc & Hc & Hp & Hcf).
  simpl. unfold_monad. rewrite sendto_run. simpl.
  rewrite Hc, Hp, Hcf, Hput.
  eexists _, (l ++ [_]). split_and!; [done|..]; simpl.
  - by rewrite Hout, <- app_assoc.
  - by rewrite put_requests_app, Hreq, fmap_app.
  - unfold encodings in *. by rewrite omap_app, Henc.
Qed.

(** Before [on_start] has built the middleware, [self.rided] is the dict
    of keyword arguments: it is true in the condition of
    [process_subscription], the call into it raises AttributeError, and so
    does the handler when it reads [self.rided.dpid] for its warning. *)
Lemma process_subscription_before_start t h w kw :
  rided (self w) = RidedDict kw →
  (process_subscription t h w).2
  = Raise (Exn AttributeError "'dict' object has no attribute").
Proof.
  intros Hr.
  unfold process_subscription, validate_subscriber, with_rided, read_dpid.
  unfold_monad. simpl. by repeat (rewrite Hr; simpl).
Qed.

(** [send_event] in unicast mode: the event is encoded, then the loop over
    the subscribers of its topic runs under the handler of IOError. *)
Lemma send_event_unicast ev w :
  use_multicast (self w) = false →
  send_event ev w
  = match
      for_ (registry_get (topic ev) (subscribers (self w)))
        (λ a, __sendto (encode_event ev) (topic ev) a None)
        {| self := self w;
           out := out w ++ [EncodeEvent ev;
                            Log DEBUG "Sending event via RIDE-D with topic %s"] |}
    with
    | (w1, Ok _) => (w1, Ok true)
    | (w1, Raise e) =>
        if is_IOError e
        then ({| self := self w1;
                 out := out w1 ++ [Log ERROR
                   "failed to send event via CoAP PUT due to error: %s"] |},
              Ok false)
        else (w1, Raise e)
    end.
Proof.
  intros Hm. unfold send_event. unfold_monad. simpl. rewrite Hm.
  rewrite <- app_assoc. simpl.
  by destruct (for_ _ _ _) as [w1 [[]|e]].
Qed.

Lemma built_read_dpid w :
  built (self w) → ∃ dpid, read_dpid w = (w, Ok dpid).
Proof. intros [r Hr]. unfold read_dpid. rewrite Hr. eauto. Qed.

(** One publisher whose route cannot be computed or installed: the
    exception is caught and a warning logged. *)
Lemma install_publisher_route_skip pub w w1 e :
  built (self w) →
  install_route_rules pub w = (w1, Raise e) →
  install_publisher_route pub w
  = ({| self := self w1;
        out := out w1 ++ [Log WARNING publisher_route_not_found] |},
     Ok ()).
Proof.
  intros Hb Hrules. pose proof (install_route_rules_built pub w Hb) as Hb1.
  rewrite Hrules in Hb1. simpl in Hb1.
  unfold install_publisher_route. unfold_monad. rewrite Hrules. simpl.
  by destruct (built_read_dpid w1 Hb1) as [dpid ->].
Qed.

(** One publisher whose route is computed and installed: the route is
    handed to [set_publisher_route]. *)
Lemma install_publisher_route_set pub w w1 route :
  built (self w) →
  install_route_rules pub w = (w1, Ok route) →
  ∃ l, out (install_publisher_route pub w).1
       = out w1 ++ Call_set_publisher_route pub route :: l.
Proof.
  intros Hb Hrules. pose proof (install_route_rules_built pub w Hb) as Hb1.
  rewrite Hrules in Hb1. simpl in Hb1. destruct Hb1 as [r1 Hr1].
  unfold install_publisher_route, with_rided, read_dpid. unfold_monad.
  rewrite Hrules. simpl. rewrite Hr1.
  destruct (set_publisher_route r1 pub route) as [r2 [[]|e]]; simpl.
  - by exists [].
  - eexists [_]. by rewrite <- app_assoc.
Qed.

Lemma install_publisher_route_ok pub w :
  built (self w) →
  (install_publisher_route pub w).2 = Ok ()
  ∧ built (self (install_publisher_route pub w).1).
Proof.
  intros Hb. pose proof (install_route_rules_built pub w Hb) as Hb1.
  destruct (install_route_rules pub w) as [w1 [route|e]] eqn:Hrules.
  - simpl in Hb1. destruct Hb1 as [r1 Hr1].
    unfold install_publisher_route, with_rided, read_dpid. unfold_monad.
    rewrite Hrules. simpl. rewrite Hr1.
    destruct (set_publisher_route r1 pub route) as [r2 [[]|e]]; simpl;
      split; try done; by eexists.
  - rewrite (install_publisher_route_skip pub w w1 e Hb Hrules). done.
Qed.

Lemma install_publisher_routes_ok pubs : ∀ w,
  built (self w) →
  (install_publisher_routes pubs w).2 = Ok ()
  ∧ built (self (install_publisher_routes pubs w).1).
Proof.
  unfold install_publisher_routes.
  induction pubs as [|pub pubs IH]; intros w Hb; simpl; [done|].
  unfold_monad. destruct (install_publisher_route_ok pub w Hb) as [Hres Hb1].
  destruct (install_publisher_route pub w) as [w1 res]. simpl in *.
  subst res. by apply IH.
Qed.

(** [on_start] in multicast mode, when RideD can be built: the timer is
    set, every publisher is gone through, and the method returns. *)
Lemma on_start_run w kw r pubs :
  rided (self w) = RidedDict kw →
  RideD_new kw = Ok r →
  publishers (self w) = Some pubs →
  on_start w
  = let w0 := {| self := set_rided (RidedBuilt r) (self w);
                 out := out w ++ [TimedCall (maintenance_interval (self w))
                                    "__maintain_topology" true;
                                  Log INFO
                                    "setting static routes for publishers"] |} in
    let w1 := (install_publisher_routes pubs w0).1 in
    ({| self := self w1; out := out w1 ++ [SuperOnStart] |}, Ok ()).
Proof.
  intros Hr Hnew Hpubs. unfold on_start. unfold_monad. simpl.
  rewrite Hr. simpl. rewrite Hnew. simpl. rewrite Hpubs. simpl.
  rewrite <- app_assoc. simpl.
  match goal with |- context [install_publisher_routes pubs ?w0] =>
    destruct (install_publisher_routes_ok pubs w0) as [Hres _];
      [by exists r|];
    destruct (install_publisher_routes pubs w0) as [w1 res]
  end. simpl in *. by subst res.
Qed.

End Runs.

(** ** The claims *)

Section Claims.
Context `{E : Externals}.
Implicit Types (w : World) (t h : string) (ev : Event).

(** C7. Inserting into the registry is idempotent: adding a (topic, host)
    pair that is already present leaves the registry unchanged (so adding
    twice is the same as adding once), and after any sequence of insertions
    from the empty registry no (topic, host) entry occurs twice when the
    registry is read out. *)
Theorem registry_add_idempotent d t h (ops : list (string * string)) :
  (registered d t h → registry_add t h d = d)
  ∧ registry_add t h (registry_add t h d) = registry_add t h d
  ∧ NoDup (registry_entries (insertions ops ∅)).
Proof.
  split_and!.
  - apply registry_add_present.
  - apply registry_add_present, registered_registry_add.
  - apply registry_entries_NoDup.
Qed.

(** C9. A subscription request whose payload is not the alert topic makes
    the handler fail with an AssertionError (no rejection value is returned),
    and the sink, its registry included, is left as it was. *)
Theorem coap_subscription_wrong_topic {Res} (req : CoapRequest) (res : Res) w :
  req_payload req ≠ SEISMIC_ALERT_TOPIC →
  __process_coap_subscription req res w
  = (w, Raise (Exn AssertionError
                 ("unrecognized subscription topic " +:+ req_payload req))).
Proof.
  intros Hne. unfold __process_coap_subscription.
  destruct (req_source req) as [host p]. unfold_monad.
  apply String.eqb_neq in Hne. by rewrite Hne.
Qed.

(** C10. In every reachable state each key of the registry maps to a
    non-empty set: the registry is empty after [__init__], every entry point
    either leaves it alone or inserts a host together with its key, and so a
    topic is a key exactly when it has at least one subscriber. *)
Theorem registry_keys_nonempty w :
  reachable w →
  keys_inhabited (subscribers (self w))
  ∧ (∀ t, is_Some (subscribers (self w) !! t)
          ↔ ∃ h, registered (subscribers (self w)) t h)
  ∧ (∀ w', step w w' →
       subscribers (self w') = subscribers (self w) ∨
       ∃ t h, subscribers (self w') = registry_add t h (subscribers (self w))).
Proof.
  intros Hw. pose proof (reachable_keys_inhabited w Hw) as Hinv. split_and!.
  - exact Hinv.
  - intros t. by apply key_iff_registered.
  - apply step_registry.
Qed.

(** C5. In a reachable state [check_available] answers true exactly when
    the event's topic is in [topics_to_sink] and some subscriber is
    registered for it; with no subscriber for the topic it answers false.  It
    changes nothing. *)
Theorem check_available_iff ev w :
  reachable w →
  ∃ b, check_available ev w = (w, Ok b)
     ∧ (b = true ↔ topic ev ∈ topics_to_sink (self w)
                   ∧ ∃ h, registered (subscribers (self w)) (topic ev) h)
     ∧ ((∀ h, ¬ registered (subscribers (self w)) (topic ev) h) → b = false).
Proof.
  intros Hw. pose proof (reachable_keys_inhabited w Hw) as Hinv.
  eexists. split; [reflexivity|]. split; [split|].
  - intros [Hsink Hkey]%andb_true_iff.
    apply bool_decide_eq_true in Hsink, Hkey.
    split; [done|]. by apply key_iff_registered.
  - intros [Hsink Hsub]. apply andb_true_iff.
    split; apply bool_decide_eq_true; [done|]. by apply key_iff_registered.
  - intros Hnone. apply andb_false_iff. right.
    apply bool_decide_eq_false. intros Hkey.
    apply key_iff_registered in Hkey as [h Hh]; [|done]. by eapply Hnone.
Qed.

(** C2 (as amended). In multicast mode, when the lookup of the multicast
    address raises, [send_event] issues no CoAP request; it returns false
    when the exception is an IOError, and lets any other exception through
    to its caller. *)
Theorem multicast_lookup_failure ev w r r' e :
  use_multicast (self w) = true →
  rided (self w) = RidedBuilt r →
  get_best_multicast_address r (topic ev) = (r', Raise e) →
  ∃ w' l,
    send_event ev w = (w', if is_IOError e then Ok false else Raise e)
    ∧ out w' = out w ++ l
    ∧ put_requests l = [].
Proof.
  intros Hm Hr Hlookup. unfold send_event, with_rided. unfold_monad. simpl.
  repeat (first [rewrite Hm|rewrite Hr|rewrite Hlookup]; simpl).
  destruct (is_IOError e); eexists _, _; (split; [reflexivity|]); simpl;
    rewrite <- !app_assoc; split; try reflexivity; done.
Qed.

(** C1 (as amended). With the middleware built, when the subscriber's
    address does not resolve or no path to the server is found,
    [process_subscription] returns false, logs a warning and does not call
    [add_subscriber]; the host has been added to the registry under the
    topic of the call all the same, before the validation. *)
Theorem unreachable_subscriber_rejected t h w r :
  rided (self w) = RidedBuilt r →
  no_route_to_server r h →
  ∃ w' l,
    process_subscription t h w = (w', Ok false)
    ∧ subscribers (self w') = registry_add t h (subscribers (self w))
    ∧ out w' = out w ++ l
    ∧ (∀ node topic_id, Call_add_subscriber node topic_id ∉ l)
    ∧ Log WARNING subscriber_route_not_found ∈ l.
Proof.
  intros Hr Hfail.
  unfold process_subscription, validate_subscriber, with_rided, read_dpid.
  unfold_monad. simpl. repeat (rewrite Hr; simpl).
  destruct Hfail as [[e He]|(r1 & node & e & Hhost & He)].
  - destruct (get_host_by_ip r h) as [r1 res]. simpl in He. subst res. simpl.
    eexists _, _. split_and!; [reflexivity|done|..]; simpl.
    + rewrite <- !app_assoc. reflexivity.
    + intros node topic_id Hin. set_solver.
    + set_solver.
  - repeat (rewrite Hhost; simpl).
    destruct (get_path r1 node (rided_dpid r1)) as [r2 res]. simpl in He.
    subst res. simpl.
    eexists _, _. split_and!; [reflexivity|done|..]; simpl.
    + rewrite <- !app_assoc. reflexivity.
    + intros n topic_id Hin. set_solver.
    + set_solver.
Qed.

(** C8 (as amended). When [process_subscription] returns true, the host is
    in the registry under the topic the call was given, and the entries of
    every other topic are as before; the alert topic is what [add_subscriber]
    is called with when the middleware is in use. *)
Theorem accepted_subscription_registered t h w :
  (process_subscription t h w).2 = Ok true →
  let w' := (process_subscription t h w).1 in
  registered (subscribers (self w')) t h
  ∧ (∀ t', t' ≠ t → subscribers (self w') !! t' = subscribers (self w) !! t')
  ∧ (rided_truthy (rided (self w)) = true →
     ∃ l node, out w' = out w ++ l
               ∧ Call_add_subscriber node SEISMIC_ALERT_TOPIC ∈ l).
Proof.
  intros Hres w'. subst w'. rewrite process_subscription_registry.
  split_and!.
  - apply registered_registry_add.
  - intros t' Hne. by apply lookup_registry_add_ne.
  - revert Hres.
    unfold process_subscription, validate_subscriber, with_rided, read_dpid.
    unfold_monad. simpl.
    destruct (rided (self w)) as [|kw|r] eqn:Hr; simpl; [done|..];
      repeat (rewrite Hr; simpl); [done|].
    destruct (get_host_by_ip r h) as [r1 [node|e]]; simpl; [|done].
    destruct (get_path r1 node (rided_dpid r1)) as [r2 [route|e]]; simpl;
      [|done].
    destruct (add_subscriber r2 node SEISMIC_ALERT_TOPIC) as [r3 [[]|e]];
      simpl; [|done].
    intros _. eexists _, node. rewrite <- !app_assoc. split; [reflexivity|].
    set_solver.
Qed.

(** C3 (as amended). In unicast mode a request that raises ends the
    fan-out: requests have been issued to the addresses up to and including
    the failing one, in iteration order, and to none of the addresses after
    it; [send_event] returns false for an IOError and lets any other
    exception through. *)
Theorem unicast_failure_aborts ev w pre a post c1 e :
  use_multicast (self w) = false →
  registry_get (topic ev) (subscribers (self w)) = pre ++ a :: post →
  deliver (conn (coap_client (self w))) (port (self w))
    ("/events/" +:+ topic ev) (encode_event ev) pre = Some c1 →
  (coap_put c1 (a, port (self w)) ("/events/" +:+ topic ev)
     (encode_event ev)).2 = Raise e →
  ∃ w' l,
    send_event ev w = (w', if is_IOError e then Ok false else Raise e)
    ∧ out w' = out w ++ l
    ∧ put_requests l = request_to w ev <$> (pre ++ [a])
    ∧ (∀ x, x ∈ post → request_to w ev x ∉ put_requests l).
Proof.
  intros Hm Hget Hd Hput.
  assert (NoDup (pre ++ a :: post)) as Hnodup.
  { rewrite <- Hget. unfold registry_get.
    destruct (_ !! _); [apply set_iter_NoDup|constructor]. }
  edestruct (unicast_loop_abort (encode_event ev) (topic ev) pre a post
    {| self := self w;
       out := out w ++ [EncodeEvent ev;
                        Log DEBUG "Sending event via RIDE-D with topic %s"] |}
    c1 e Hd Hput) as (w' & l & Hrun & Hout & Hreq & Henc).
  simpl in *.
  assert (∀ x, x ∈ post → request_to w ev x ∉ request_to w ev <$> (pre ++ [a]))
    as Hpost.
  { intros x Hx [y [Heq Hy]]%list_elem_of_fmap. injection Heq as ->.
    apply NoDup_app in Hnodup as (_ & Hdisj & Hnd).
    apply elem_of_app in Hy as [Hy|Hy%list_elem_of_singleton].
    - apply (Hdisj y Hy). by right.
    - subst y. by apply NoDup_cons in Hnd as [? _]. }
  rewrite send_event_unicast, Hget, Hrun by done.
  destruct (is_IOError e); eexists _, _; (split; [reflexivity|]); simpl;
    rewrite Hout, <- !app_assoc; (split; [reflexivity|]); simpl;
    rewrite ?put_requests_app, Hreq, ?app_nil_r; done.
Qed.

(** C4 (as amended). In unicast mode, for a topic whose subscribers are the
    two hosts A and B, [send_event] encodes the event once and, provided the
    first request it makes returns normally, issues exactly two requests: one
    to (A, port) and one to (B, port), on the path of the topic, both with
    the encoded event as payload. *)
Theorem unicast_two_subscribers ev w (A B : string) :
  use_multicast (self w) = false →
  A ≠ B →
  subscribers (self w) !! topic ev = Some {[A; B]} →
  (∀ x, head (registry_get (topic ev) (subscribers (self w))) = Some x →
        (coap_put (conn (coap_client (self w))) (x, port (self w))
           ("/events/" +:+ topic ev) (encode_event ev)).2 = Ok ()) →
  ∃ w' res l,
    send_event ev w = (w', res)
    ∧ out w' = out w ++ l
    ∧ put_requests l ≡ₚ [request_to w ev A; request_to w ev B]
    ∧ encodings l = [ev].
Proof.
  intros Hm Hne Hsubs Hfirst.
  assert (∀ x y, set_iter {[A; B]} = [x; y] →
    [request_to w ev x; request_to w ev y]
    ≡ₚ [request_to w ev A; request_to w ev B] →
    ∃ w' res l,
      send_event ev w = (w', res)
      ∧ out w' = out w ++ l
      ∧ put_requests l ≡ₚ [request_to w ev A; request_to w ev B]
      ∧ encodings l = [ev]) as Hrun.
  { intros x y Hiter Hperm. rewrite send_event_unicast by done.
    unfold registry_get in *. rewrite Hsubs, Hiter in *. simpl in Hfirst.
    specialize (Hfirst x eq_refl). simpl.
    unfold_monad. rewrite !sendto_run. simpl.
    destruct (coap_put _ (x, _) _ _) as [c1 res1]. simpl in Hfirst.
    subst res1. simpl. rewrite sendto_run. simpl.
    match goal with |- context [coap_put c1 ?d ?p ?m] =>
      destruct (coap_put c1 d p m) as [c2 [[]|e]]
    end; simpl; [|destruct (is_IOError e)]; eexists _, _, _;
      (split; [reflexivity|]); simpl; rewrite <- !app_assoc;
      (split; [reflexivity|]); simpl; done. }
  destruct (set_iter_pair A B Hne) as [Hiter|Hiter].
  - by apply (Hrun A B).
  - apply (Hrun B A); [done|]. apply Permutation_swap.
Qed.

(** C6. [on_start] in multicast mode, when RideD can be built, returns
    normally whatever happens for the single publishers: it leaves the world
    obtained by going through all of them in order.  For a publisher whose
    path, flow rules or rule installation fail, the exception is caught and
    a warning is logged, and the loop goes on with the remaining publishers;
    for a publisher for which they all succeed, the path is handed to
    [set_publisher_route]. *)
Theorem publisher_routes_best_effort w kw r (before after : list Node)
    (pub : Node) :
  rided (self w) = RidedDict kw →
  RideD_new kw = Ok r →
  publishers (self w) = Some (before ++ pub :: after) →
  let w0 := {| self := set_rided (RidedBuilt r) (self w);
               out := out w ++ [TimedCall (maintenance_interval (self w))
                                  "__maintain_topology" true;
                                Log INFO
                                  "setting static routes for publishers"] |} in
  let w1 := (install_publisher_routes before w0).1 in
  let w2 := (install_publisher_route pub w1).1 in
  let w3 := (install_publisher_routes after w2).1 in
  on_start w = ({| self := self w3; out := out w3 ++ [SuperOnStart] |}, Ok ())
  ∧ (∀ w' e, install_route_rules pub w1 = (w', Raise e) →
       install_publisher_route pub w1
       = ({| self := self w';
             out := out w' ++ [Log WARNING publisher_route_not_found] |},
          Ok ()))
  ∧ (∀ w' route, install_route_rules pub w1 = (w', Ok route) →
       ∃ l, out w2 = out w' ++ Call_set_publisher_route pub route :: l).
Proof.
  intros Hr Hnew Hpubs w0 w1 w2 w3.
  assert (built (self w0)) as Hb by (by exists r).
  destruct (install_publisher_routes_ok before w0 Hb) as [Hres1 Hb1].
  fold w1 in Hb1.
  destruct (install_publisher_route_ok pub w1 Hb1) as [Hres2 Hb2].
  split_and!.
  - rewrite (on_start_run w kw r _ Hr Hnew Hpubs). fold w0.
    cbv zeta. do 3 f_equal.
    all: subst w3 w2 w1; unfold install_publisher_routes in *;
      rewrite for_app;
      destruct (for_ before _ w0) as [w1 res1]; simpl in *; subst res1;
      unfold_monad;
      destruct (install_publisher_route pub w1) as [w2 res2]; simpl in *;
      by subst res2.
  - intros w' e. by apply install_publisher_route_skip.
  - intros w' route. by apply install_publisher_route_set.
Qed.

End Claims.

(** ** The claims on the simulated network *)

Module Examples.
Import Fake Scenario.

(** The sink with one subscriber is reachable: [__init__], then one call of
    [process_subscription]. *)
Lemma unicast1_reachable : reachable unicast1.
Proof.
  eapply reachable_step; [|apply step_process_subscription].
  by apply (reachable_init (args false)).
Qed.

(** 10.0.0.9 resolves to h9, from which no path leads to the server. *)
Lemma no_route_from_h9 :
  no_route_to_server (E := externals net []) net "10.0.0.9".
Proof. right. by exists net, "h9", (Exn NetworkXNoPath "h9"). Qed.

(** C1, as stated, fails: host 10.0.0.9 has no path to the server, the
    subscription is refused, and yet the host is in the registry, which was
    empty before the call. *)
Lemma unreachable_subscriber_changes_registry :
  no_route_to_server (E := externals net []) net "10.0.0.9"
  ∧ (process_subscription "seismic_alert" "10.0.0.9" (multicast0 net)).2
    = Ok false
  ∧ subscribers (self (multicast0 net)) = ∅
  ∧ subscribers
      (self (process_subscription "seismic_alert" "10.0.0.9" (multicast0 net)).1)
    !! "seismic_alert" = Some {[ "10.0.0.9" ]}.
Proof. split; [apply no_route_from_h9|]. by vm_compute. Qed.

(** C1 as amended, on the same call. *)
Lemma unreachable_subscriber_rejected_witness :
  no_route_to_server (E := externals net []) net "10.0.0.9"
  ∧ (process_subscription "seismic_alert" "10.0.0.9" (multicast0 net)).2
    = Ok false.
Proof.
  split; [apply no_route_from_h9|].
  destruct (unreachable_subscriber_rejected "seismic_alert" "10.0.0.9"
              (multicast0 net) net eq_refl no_route_from_h9)
    as (w' & l & -> & _).
  reflexivity.
Defined.

(** C2, as stated, fails: no multicast tree exists for the topic, the lookup
    raises KeyError, and [send_event] raises it to its caller instead of
    returning false. *)
Lemma multicast_lookup_failure_raises :
  use_multicast (self (multicast0 net)) = true
  ∧ (get_best_multicast_address (Externals := externals net []) net
       "seismic_alert").2 = Raise (Exn KeyError "seismic_alert")
  ∧ (send_event alert (multicast0 net)).2
    = Raise (Exn KeyError "seismic_alert").
Proof. by vm_compute. Qed.

(** C2 as amended, on a middleware whose lookup raises IOError. *)
Lemma multicast_lookup_failure_witness :
  ∃ w' l,
    send_event alert (multicast0 net_io) = (w', Ok false)
    ∧ out w' = out (multicast0 net_io) ++ l
    ∧ put_requests l = [].
Proof.
  exact (multicast_lookup_failure alert (multicast0 net_io) net_io net_io
           (Exn IOError "seismic_alert") eq_refl eq_refl eq_refl).
Defined.

(** C3, as stated, fails: of the two subscribers, 10.0.0.3 comes first in
    the iteration and is unreachable; the request to it raises, and no
    request is issued to 10.0.0.2, which is reachable. *)
Lemma unicast_failure_skips_subscriber :
  use_multicast (self (unicast2 ["10.0.0.3"])) = false
  ∧ registry_get (E := externals net ["10.0.0.3"]) "seismic_alert"
      (subscribers (self (unicast2 ["10.0.0.3"])))
    = ["10.0.0.3"; "10.0.0.2"]
  ∧ (coap_put (Externals := externals net ["10.0.0.3"]) ["10.0.0.3"]
       ("10.0.0.2", 5683%Z) "/events/seismic_alert" "seismic_alert:P").2
    = Ok ()
  ∧ (send_event alert (unicast2 ["10.0.0.3"])).2 = Ok false
  ∧ put_requests (out (send_event alert (unicast2 ["10.0.0.3"])).1)
    = [(("10.0.0.3", 5683%Z), true, "/events/seismic_alert",
        "seismic_alert:P")].
Proof. by vm_compute. Qed.

(** C3 as amended, on the same call. *)
Lemma unicast_failure_aborts_witness :
  ∃ w' l,
    send_event alert (unicast2 ["10.0.0.3"]) = (w', Ok false)
    ∧ out w' = out (unicast2 ["10.0.0.3"]) ++ l
    ∧ put_requests l
      = request_to (unicast2 ["10.0.0.3"]) alert <$> ([] ++ ["10.0.0.3"])
    ∧ (∀ x, x ∈ ["10.0.0.2"] →
            request_to (unicast2 ["10.0.0.3"]) alert x ∉ put_requests l).
Proof.
  exact (unicast_failure_aborts alert (unicast2 ["10.0.0.3"])
           [] "10.0.0.3" ["10.0.0.2"] ["10.0.0.3"]
           (Exn socket_error "Network is unreachable")
           eq_refl eq_refl eq_refl eq_refl).
Defined.

(** C4, as stated, fails: the topic has the two subscribers 10.0.0.2 and
    10.0.0.3, neither is reachable, and [send_event] issues one request, not
    two. *)
Lemma unicast_two_subscribers_one_request :
  use_multicast (self (unicast2 ["10.0.0.2"; "10.0.0.3"])) = false
  ∧ subscribers (self (unicast2 ["10.0.0.2"; "10.0.0.3"])) !! "seismic_alert"
    = Some {[ "10.0.0.2"; "10.0.0.3" ]}
  ∧ put_requests
      (out (send_event alert (unicast2 ["10.0.0.2"; "10.0.0.3"])).1)
    = [(("10.0.0.3", 5683%Z), true, "/events/seismic_alert",
        "seismic_alert:P")].
Proof. by vm_compute. Qed.

(** C4 as amended, when only the second destination, 10.0.0.2, is
    unreachable: both requests are issued. *)
Lemma unicast_two_subscribers_witness :
  ∃ w' res l,
    send_event alert (unicast2 ["10.0.0.2"]) = (w', res)
    ∧ out w' = out (unicast2 ["10.0.0.2"]) ++ l
    ∧ put_requests l
      ≡ₚ [request_to (unicast2 ["10.0.0.2"]) alert "10.0.0.2";
          request_to (unicast2 ["10.0.0.2"]) alert "10.0.0.3"]
    ∧ encodings l = [alert].
Proof.
  apply (unicast_two_subscribers alert (unicast2 ["10.0.0.2"])
           "10.0.0.2" "10.0.0.3").
  - reflexivity.
  - discriminate.
  - reflexivity.
  - intros x Hx. vm_compute in Hx. injection Hx as <-. reflexivity.
Defined.

(** C5 on the sink with one subscriber. *)
Lemma check_available_iff_witness :
  reachable unicast1 ∧ (check_available alert unicast1).2 = Ok true.
Proof.
  split; [apply unicast1_reachable|].
  destruct (check_available_iff alert unicast1 unicast1_reachable)
    as (b & -> & Hb & _).
  simpl. f_equal. apply Hb. split.
  - apply elem_of_list_to_set, list_elem_of_singleton. reflexivity.
  - exists "10.0.0.2", {[ "10.0.0.2" ]}. split; [reflexivity|].
    by apply elem_of_singleton.
Defined.

(** C6 on the two publishers of the examples: p1 has a path to the server,
    p2 has none. *)
Lemma publisher_routes_best_effort_witness :
  __init__ (args true) = Ok multicast_init
  ∧ (on_start multicast_init).2 = Ok ().
Proof.
  split; [reflexivity|].
  rewrite (proj1 (publisher_routes_best_effort (E := externals net [])
                    multicast_init _ net ["p1"] [] "p2"
                    eq_refl eq_refl eq_refl)).
  reflexivity.
Defined.

(** C7 on a registry with one entry. *)
Lemma registry_add_idempotent_witness :
  registered {[ "seismic_alert" := {[ "10.0.0.2" ]} ]}
    "seismic_alert" "10.0.0.2"
  ∧ registry_add "seismic_alert" "10.0.0.2"
      {[ "seismic_alert" := {[ "10.0.0.2" ]} ]}
    = {[ "seismic_alert" := {[ "10.0.0.2" ]} ]}.
Proof.
  assert (registered {[ "seismic_alert" := {[ "10.0.0.2" ]} ]}
            "seismic_alert" "10.0.0.2") as Hin.
  { exists {[ "10.0.0.2" ]}. split; [reflexivity|]. by apply elem_of_singleton. }
  split; [exact Hin|].
  exact (proj1 (registry_add_idempotent (E := externals net [])
                  {[ "seismic_alert" := {[ "10.0.0.2" ]} ]}
                  "seismic_alert" "10.0.0.2" []) Hin).
Defined.

(** C8, as stated, fails: a subscription to another topic is accepted, and
    the host is recorded under that topic, not under the alert topic. *)
Lemma subscription_recorded_under_request_topic :
  SEISMIC_ALERT_TOPIC (Externals := externals net []) = "seismic_alert"
  ∧ (process_subscription "weather" "10.0.0.2" unicast0).2 = Ok true
  ∧ subscribers (self (process_subscription "weather" "10.0.0.2" unicast0).1)
    !! "seismic_alert" = None
  ∧ subscribers (self (process_subscription "weather" "10.0.0.2" unicast0).1)
    !! "weather" = Some {[ "10.0.0.2" ]}.
Proof. by vm_compute. Qed.

(** C8 as amended, on a subscription to another topic by a reachable
    host. *)
Lemma accepted_subscription_registered_witness :
  (process_subscription "weather" "10.0.0.2" (multicast0 net)).2 = Ok true
  ∧ registered
      (subscribers
         (self (process_subscription "weather" "10.0.0.2" (multicast0 net)).1))
      "weather" "10.0.0.2".
Proof.
  split; [reflexivity|].
  exact (proj1 (accepted_subscription_registered "weather" "10.0.0.2"
                  (multicast0 net) eq_refl)).
Defined.

(** C9 on a request for another topic. *)
Lemma coap_subscription_wrong_topic_witness :
  __process_coap_subscription
    {| req_source := ("10.0.0.2", 40000%Z); req_payload := "weather" |} ()
    unicast0
  = (unicast0,
     Raise (Exn AssertionError "unrecognized subscription topic weather")).
Proof.
  apply (coap_subscription_wrong_topic
           {| req_source := ("10.0.0.2", 40000%Z); req_payload := "weather" |}
           () unicast0).
  discriminate.
Defined.

(** C10 on the sink with one subscriber. *)
Lemma registry_keys_nonempty_witness :
  reachable unicast1 ∧ keys_inhabited (subscribers (self unicast1)).
Proof.
  split; [apply unicast1_reachable|].
  exact (proj1 (registry_keys_nonempty unicast1 unicast1_reachable)).
Defined.

End Examples.

(** * Further properties of the sink *)

(** ** What every entry point keeps *)

Section Frames.
Context `{E : Externals}.
Context (R : relation RideDEventSink) `{!PreOrder R}.

(** What [R] has to allow: a call into the built middleware, building it
    from the stored keyword arguments, a request through the CoAP client
    (which keeps its confirmable flag), and an insertion into the
    registry. *)
Hypothesis R_rided : ∀ s r r',
  rided s = RidedBuilt r → R s (set_rided (RidedBuilt r') s).
Hypothesis R_build : ∀ s kw r,
  rided s = RidedDict kw → R s (set_rided (RidedBuilt r) s).
Hypothesis R_coap : ∀ s c,
  confirmable_messages c = confirmable_messages (coap_client s) →
  R s (set_coap_client c s).
Hypothesis R_add : ∀ s t h,
  R s (set_subscribers (registry_add t h (subscribers s)) s).

Ltac frame_step :=
  first
    [ apply (respects_bind R); [|intros ?]
    | apply (respects_try_except R); [|intros ?]
    | apply (respects_for_ R); intros ?
    | apply (respects_modify R); intros ?
    | apply (respects_with_rided R); exact R_rided
    | apply (respects_ret R) | apply (respects_raise R) | apply (respects_get R)
    | apply (respects_emit R) | apply (respects_log R) | apply (respects_assert R)
    | apply (respects_read_dpid R)
    | match goal with
      | |- respects _ (if ?c then _ else _) => destruct c
      | |- respects _ (match ?x with _ => _ end) => destruct x
      end ].

Lemma frame_coap_client_put path payload :
  respects R (coap_client_put path payload).
Proof.
  intros w. unfold coap_client_put.
  destruct (coap_put _ _ _ _) as [c' res]. simpl. by apply R_coap.
Qed.

Ltac frame_solve :=
  repeat frame_step;
  first [by apply R_coap | apply R_add | apply frame_coap_client_put].

Lemma frame_sendto msg t a p : respects R (__sendto msg t a p).
Proof. unfold __sendto. frame_solve. Qed.

Lemma frame_send_event ev : respects R (send_event ev).
Proof. unfold send_event. frame_solve. Qed.

Lemma frame_process_subscription t h : respects R (process_subscription t h).
Proof. unfold process_subscription. frame_solve. Qed.

Lemma frame_process_coap_subscription {Res} req (res : Res) :
  respects R (__process_coap_subscription req res).
Proof.
  unfold __process_coap_subscription. destruct (req_source req).
  frame_solve.
Qed.

Lemma step_frame w w' : step w w' → R (self w) (self w').
Proof.
  destruct 1.
  - by apply (respects_on_start R).
  - by apply (respects_maintain_topology R).
  - by apply (respects_on_coap_ready R).
  - apply frame_process_coap_subscription.
  - apply frame_process_subscription.
  - by apply (respects_on_event R).
  - by apply (respects_check_available R).
  - apply frame_send_event.
  - by apply (respects_on_stop R).
  - by apply (respects_put_event_callback R).
Qed.

Lemma steps_frame w w' : rtc step w w' → R (self w) (self w').
Proof.
  induction 1 as [w|w w1 w' Hstep _ IH]; [reflexivity|].
  etrans; [by apply step_frame|exact IH].
Qed.

End Frames.

(** ** Configuration, mode and registry over the life of the sink *)

Section Lifetime.
Context `{E : Externals}.
Implicit Types (w : World) (t h : string) (ev : Event).

#[export] Instance same_config_preorder : PreOrder same_config.
Proof.
  split.
  - by intros s.
  - intros s1 s2 s3 H12 H23. unfold same_config in *.
    destruct_and!. split_and!; congruence.
Qed.

#[export] Instance registry_grows_preorder : PreOrder registry_grows.
Proof.
  split; unfold registry_grows; [by intros s|].
  intros s1 s2 s3 H12 H23 t h Hin. by apply H23, H12.
Qed.

Lemma step_same_config w w' : step w w' → same_config (self w) (self w').
Proof.
  apply (step_frame same_config).
  - intros s r r' Hr. unfold same_config. simpl. by rewrite Hr.
  - intros s kw r Hr. unfold same_config. simpl. by rewrite Hr.
  - intros s c Hc. unfold same_config. by simpl.
  - intros s t h. unfold same_config. by simpl.
Qed.

Lemma process_subscription_same_config t h w :
  same_config (self w) (self (process_subscription t h w).1).
Proof. apply step_same_config, step_process_subscription. Qed.

Lemma init_mode_consistent a w :
  __init__ a = Ok w → mode_consistent (self w) ∧ out w = [].
Proof.
  unfold __init__, BUILD_RIDED_IN_INIT. intros H.
  destruct (arg_multicast a) eqn:Hm; simpl in H;
    (destruct (arg_addresses a) as [|a0 ?]; [done|]);
    (destruct (CoapClient_new _ _ _) as [c|e]; [|done]);
    injection H as <-; unfold mode_consistent; simpl; by rewrite ?Hm.
Qed.

Lemma reachable_mode_consistent w : reachable w → mode_consistent (self w).
Proof.
  induction 1 as [a w Hinit|w w' _ IH Hstep].
  - by eapply init_mode_consistent.
  - destruct (step_same_config _ _ Hstep) as (_ & _ & Hm & _ & _ & Hc & Hn).
    destruct IH as [IH1 IH2]. unfold mode_consistent. by rewrite Hn, Hc, Hm.
Qed.

Lemma step_registry_grows w w' :
  step w w' → registry_grows (self w) (self w').
Proof.
  intros Hstep t h Hin.
  destruct (step_registry _ _ Hstep) as [->|(t' & h' & ->)]; [done|].
  apply registered_registry_add_iff. by right.
Qed.

End Lifetime.

(** ** More on what a call does *)

Section MoreRuns.
Context `{E : Externals}.
Implicit Types (w : World) (t h : string) (ev : Event).

(** The unicast loop, however it ends: requests have gone to the first [k]
    addresses, and to all of them when the loop returns. *)
Lemma unicast_loop_prefix msg t addrs : ∀ w,
  ∃ w' res l k,
    for_ addrs (λ a, __sendto msg t a None) w = (w', res)
    ∧ out w' = out w ++ l
    ∧ put_requests l
      = (λ a, ((a, port (self w)), confirmable_messages (coap_client (self w)),
               "/events/" +:+ t, msg)) <$> take k addrs
    ∧ encodings l = []
    ∧ (res = Ok () → length addrs ≤ k).
Proof.
  induction addrs as [|a addrs IH]; intros w; simpl.
  - exists w, (Ok ()), [], 0. simpl. by rewrite app_nil_r.
  - unfold_monad. rewrite sendto_run. simpl.
    destruct (coap_put _ _ _ _) as [c1 [[]|e]] eqn:Hput; simpl.
    + match goal with |- context [for_ addrs _ ?w1] =>
        destruct (IH w1) as (w' & res & l & k & -> & Hout & Hreq & Henc & Hk)
      end. simpl in *.
      eexists w', res, (_ :: _ :: l), (S k). split_and!.
      * done.
      * by rewrite Hout, <- app_assoc.
      * simpl. by rewrite Hreq.
      * exact Henc.
      * intros Hres. specialize (Hk Hres). simpl. lia.
    + eexists _, _, [_], 1. by split_and!.
Qed.

(** [process_subscription] with the middleware built: the verdict of the
    validation is what it returns; it raises nothing. *)
Lemma process_subscription_built t h w r :
  rided (self w) = RidedBuilt r →
  ∃ w' b, process_subscription t h w = (w', Ok b) ∧ (b = true ↔ validated r h).
Proof.
  intros Hr.
  unfold process_subscription, validate_subscriber, with_rided, read_dpid,
    validated.
  unfold_monad. simpl. repeat (rewrite Hr; simpl).
  destruct (get_host_by_ip r h) as [r1 [node|e]] eqn:Hhost; simpl.
  2: { eexists _, false. split; [done|]. naive_solver. }
  destruct (get_path r1 node (rided_dpid r1)) as [r2 [route|e]] eqn:Hpath;
    simpl.
  2: { eexists _, false. split; [done|]. split; [done|].
       intros (? & ? & ? & ? & ? & [= <- <-] & Hp & _).
       rewrite Hpath in Hp. done. }
  destruct (add_subscriber r2 node SEISMIC_ALERT_TOPIC) as [r3 [[]|e]] eqn:Hadd;
    simpl.
  - eexists _, true. split; [done|]. split; [|done]. intros _.
    by exists r1, node, r2, route, r3.
  - eexists _, false. split; [done|]. split; [done|].
    intros (? & ? & ? & ? & ? & [= <- <-] & Hp & Ha).
    rewrite Hpath in Hp. injection Hp as <- <-. rewrite Hadd in Ha. done.
Qed.

(** [process_subscription] without middleware. *)
Lemma process_subscription_unicast t h w :
  rided (self w) = RidedNone →
  process_subscription t h w
  = ({| self := set_subscribers (registry_add t h (subscribers (self w)))
                  (self w);
        out := out w ++ [Log DEBUG
          "processing RIDE-D subscription for topic '%s' by host '%s'"] |},
     Ok true).
Proof.
  intros Hr. unfold process_subscription. unfold_monad. simpl. by rewrite Hr.
Qed.

(** [on_start] leaves the middleware built when it returns. *)
Lemma on_start_built w kw r pubs :
  rided (self w) = RidedDict kw →
  RideD_new kw = Ok r →
  publishers (self w) = Some pubs →
  built (self (on_start w).1).
Proof.
  intros Hr Hnew Hpubs. rewrite (on_start_run w kw r pubs Hr Hnew Hpubs).
  simpl. apply install_publisher_routes_ok. by exists r.
Qed.

End MoreRuns.

(** ** Further properties *)

Section Further.
Context `{E : Externals}.
Implicit Types (w : World) (t h : string) (ev : Event).

(** X1. In multicast mode with the middleware built, when RIDE-D gives a
    multicast address, [send_event] encodes the event once and issues exactly
    one request, to that address on the configured port, whatever the
    registry holds; it returns true when the request returns, false when it
    raises an IOError, and lets any other exception through.  The registry is
    not changed. *)
Theorem multicast_single_request ev w r r' (a : string) :
  use_multicast (self w) = true →
  rided (self w) = RidedBuilt r →
  get_best_multicast_address r (topic ev) = (r', Ok a) →
  ∃ w' l,
    send_event ev w
    = (w', match (coap_put (conn (coap_client (self w))) (a, port (self w))
                    ("/events/" +:+ topic ev) (encode_event ev)).2 with
           | Ok _ => Ok true
           | Raise e => if is_IOError e then Ok false else Raise e
           end)
    ∧ out w' = out w ++ l
    ∧ put_requests l = [request_to w ev a]
    ∧ encodings l = [ev]
    ∧ subscribers (self w') = subscribers (self w).
Proof.
  intros Hm Hr Hlookup. unfold send_event, with_rided. unfold_monad. simpl.
  repeat (first [rewrite Hm|rewrite Hr|rewrite Hlookup]; simpl).
  rewrite sendto_run. simpl.
  destruct (coap_put _ _ _ _) as [c1 [[]|e]]; simpl;
    [|destruct (is_IOError e)]; eexists _, _;
    (split; [reflexivity|]); simpl; rewrite <- !app_assoc;
    (split; [reflexivity|]); done.
Qed.

(** X2. In unicast mode, when every request returns, [send_event] returns
    true after one request per subscriber of the topic, in iteration order,
    each with the encoded event; for a topic that is no key of the registry
    that is no request at all, and the answer is still true. *)
Theorem unicast_all_delivered ev w c' :
  use_multicast (self w) = false →
  deliver (conn (coap_client (self w))) (port (self w))
    ("/events/" +:+ topic ev) (encode_event ev)
    (registry_get (topic ev) (subscribers (self w))) = Some c' →
  ∃ w' l,
    send_event ev w = (w', Ok true)
    ∧ out w' = out w ++ l
    ∧ put_requests l
      = request_to w ev <$> registry_get (topic ev) (subscribers (self w))
    ∧ encodings l = [ev]
    ∧ (subscribers (self w) !! topic ev = None → put_requests l = []).
Proof.
  intros Hm Hd. rewrite send_event_unicast by done.
  edestruct (unicast_loop_ok (encode_event ev) (topic ev)
    (registry_get (topic ev) (subscribers (self w)))
    {| self := self w;
       out := out w ++ [EncodeEvent ev;
                        Log DEBUG "Sending event via RIDE-D with topic %s"] |}
    c' Hd) as (w' & l & -> & Hout & Hreq & Henc & _).
  simpl in *. eexists _, _. split; [reflexivity|].
  rewrite Hout, <- app_assoc. split; [reflexivity|]. simpl.
  split_and!; [done|by rewrite Henc|].
  intros Hnone. rewrite Hreq. unfold registry_get. by rewrite Hnone.
Qed.

(** X3. In unicast mode, however [send_event] ends, the requests it has
    issued are an initial part of the requests to the subscribers of the
    topic in iteration order: no subscriber gets two requests, no request
    goes to a host that is not subscribed to the topic, and when the answer
    is true every subscriber got one. *)
Theorem unicast_requests_prefix ev w :
  use_multicast (self w) = false →
  ∃ w' res l,
    send_event ev w = (w', res)
    ∧ out w' = out w ++ l
    ∧ put_requests l
      `prefix_of` (request_to w ev
                     <$> registry_get (topic ev) (subscribers (self w)))
    ∧ NoDup (put_requests l)
    ∧ (∀ req, req ∈ put_requests l →
         ∃ h, req = request_to w ev h
              ∧ registered (subscribers (self w)) (topic ev) h)
    ∧ (res = Ok true →
       put_requests l
       = request_to w ev <$> registry_get (topic ev) (subscribers (self w))).
Proof.
  intros Hm. rewrite send_event_unicast by done.
  set (addrs := registry_get (topic ev) (subscribers (self w))).
  assert (NoDup addrs) as Hnd.
  { unfold addrs, registry_get.
    destruct (_ !! _); [apply set_iter_NoDup|constructor]. }
  assert (∀ h, h ∈ addrs → registered (subscribers (self w)) (topic ev) h)
    as Hreg.
  { unfold addrs, registry_get. intros h Hh.
    destruct (_ !! _) as [hosts|] eqn:Hsubs; [|by apply elem_of_nil in Hh].
    exists hosts. split; [done|]. by apply set_iter_elem_of. }
  edestruct (unicast_loop_prefix (encode_event ev) (topic ev) addrs
    {| self := self w;
       out := out w ++ [EncodeEvent ev;
                        Log DEBUG "Sending event via RIDE-D with topic %s"] |})
    as (w' & res & l & k & -> & Hout & Hreq & Henc & Hk).
  simpl in *.
  assert (request_to w ev <$> take k addrs
          `prefix_of` request_to w ev <$> addrs) as Hpre.
  { rewrite <- (take_drop k addrs) at 2. rewrite fmap_app.
    by apply prefix_app_r. }
  assert (NoDup (request_to w ev <$> take k addrs)) as Hnd'.
  { apply NoDup_fmap_2.
    - intros x y Heq. by injection Heq.
    - eapply sublist_NoDup; [exact Hnd|]. apply sublist_take. }
  assert (∀ req, req ∈ request_to w ev <$> take k addrs →
            ∃ h, req = request_to w ev h
                 ∧ registered (subscribers (self w)) (topic ev) h) as Hall.
  { intros req (h & -> & Hh)%list_elem_of_fmap. exists h. split; [done|].
    apply Hreg. by apply (subseteq_take k). }
  destruct res as [[]|e]; [|destruct (is_IOError e)]; eexists _, _, _;
    (split; [reflexivity|]); simpl; rewrite Hout, <- !app_assoc;
    (split; [reflexivity|]); simpl; rewrite ?put_requests_app, Hreq;
    simpl; rewrite ?app_nil_r; split_and!; try done.
  intros _. rewrite take_ge; [done|]. by apply Hk.
Qed.

(** X4. With the middleware built, [process_subscription] never raises,
    whatever RIDE-D raises: it returns true when the address resolves, a
    path to the server is found and [add_subscriber] returns, and false in
    every other case. *)
Theorem subscription_verdict t h w r :
  rided (self w) = RidedBuilt r →
  ∃ w' b,
    process_subscription t h w = (w', Ok b) ∧ (b = true ↔ validated r h).
Proof. apply process_subscription_built. Qed.

(** X5. The registry never loses an entry: whatever entry points are called
    afterwards, in whatever order and with whatever outcome, a registered
    (topic, host) pair stays registered. *)
Theorem registry_never_shrinks w w' t h :
  rtc step w w' →
  registered (subscribers (self w)) t h →
  registered (subscribers (self w')) t h.
Proof.
  intros Hsteps. revert t h. change (registry_grows (self w) (self w')).
  induction Hsteps as [w|w w1 w' Hstep _ IH]; [reflexivity|].
  etrans; [by apply step_registry_grows|exact IH].
Qed.

(** X6. No entry point changes what [__init__] has configured: the port,
    the topics to sink, the mode, the publishers, the maintenance interval,
    the confirmable flag of the CoAP client and whether [self.rided] is
    [None] are the same after any sequence of calls. *)
Theorem configuration_fixed w w' :
  rtc step w w' → same_config (self w) (self w').
Proof.
  induction 1 as [w|w w1 w' Hstep _ IH]; [reflexivity|].
  etrans; [by apply step_same_config|exact IH].
Qed.

(** X7. In every reachable state [self.rided] is [None] exactly in unicast
    mode and the CoAP client sends confirmable messages exactly in unicast
    mode; so the assertion of [__on_coap_ready] holds and the callback
    returns. *)
Theorem mode_never_mixed w :
  reachable w →
  mode_consistent (self w) ∧ (__on_coap_ready w).2 = Ok ().
Proof.
  intros Hw. pose proof (reachable_mode_consistent w Hw) as [Hn Hc].
  split; [done|]. unfold __on_coap_ready. unfold_monad. simpl.
  destruct (use_multicast (self w)); [|done]. by rewrite Hn.
Qed.

(** X8. After a call of [process_subscription] for the topic of an event,
    whatever the call returned or raised, [check_available] answers for the
    event whether its topic is one of the topics to sink. *)
Theorem subscription_makes_available ev h w :
  (check_available ev (process_subscription (topic ev) h w).1).2
  = Ok (bool_decide (topic ev ∈ topics_to_sink (self w))).
Proof.
  pose proof (process_subscription_same_config (topic ev) h w)
    as (_ & Htopics & _).
  pose proof (process_subscription_registry (topic ev) h w) as Hsubs.
  unfold check_available. unfold_monad. simpl.
  rewrite Htopics, Hsubs, lookup_registry_add.
  rewrite (bool_decide_eq_true_2 (is_Some _)) by eauto.
  by rewrite andb_true_r.
Qed.

(** X9. In unicast mode a host that has subscribed to the topic of an event
    gets a request for it at the next [send_event], provided the requests
    return. *)
Theorem subscriber_gets_next_alert ev h w c' :
  use_multicast (self w) = false →
  let w1 := (process_subscription (topic ev) h w).1 in
  deliver (conn (coap_client (self w1))) (port (self w1))
    ("/events/" +:+ topic ev) (encode_event ev)
    (registry_get (topic ev) (subscribers (self w1))) = Some c' →
  ∃ w' l,
    send_event ev w1 = (w', Ok true)
    ∧ out w' = out w1 ++ l
    ∧ request_to w1 ev h ∈ put_requests l.
Proof.
  intros Hm w1 Hd.
  pose proof (process_subscription_same_config (topic ev) h w)
    as (_ & _ & Hm1 & _). fold w1 in Hm1. rewrite Hm in Hm1.
  rewrite send_event_unicast by done.
  edestruct (unicast_loop_ok (encode_event ev) (topic ev)
    (registry_get (topic ev) (subscribers (self w1)))
    {| self := self w1;
       out := out w1 ++ [EncodeEvent ev;
                         Log DEBUG "Sending event via RIDE-D with topic %s"] |}
    c' Hd) as (w' & l & -> & Hout & Hreq & _).
  simpl in *. eexists _, _. split; [reflexivity|].
  rewrite Hout, <- app_assoc. split; [reflexivity|]. simpl. rewrite Hreq.
  apply list_elem_of_fmap. exists h. split; [done|].
  unfold registry_get, w1.
  rewrite process_subscription_registry, lookup_registry_add.
  apply set_iter_elem_of. set_solver.
Qed.

(** X10. [on_start] cannot be run twice: called again after it has built
    the middleware, it raises AssertionError and changes nothing, so no
    second timer is set. *)
Theorem on_start_twice w kw r pubs :
  rided (self w) = RidedDict kw →
  RideD_new kw = Ok r →
  publishers (self w) = Some pubs →
  let w1 := (on_start w).1 in
  (on_start w).2 = Ok () ∧ on_start w1 = (w1, Raise (Exn AssertionError "")).
Proof.
  intros Hr Hnew Hpubs w1.
  destruct (on_start_built w kw r pubs Hr Hnew Hpubs) as [r1 Hr1].
  fold w1 in Hr1. split.
  - by rewrite (on_start_run w kw r pubs Hr Hnew Hpubs).
  - unfold on_start. unfold_monad. simpl. by rewrite Hr1.
Qed.

(** X11. A sink built for multicast without publishers (the default of
    [__init__]) fails at [on_start] with AssertionError, after the
    middleware has been built and the maintenance timer set: the [on_start]
    of the base class is not reached. *)
Theorem on_start_without_publishers a w kw r :
  __init__ a = Ok w →
  arg_publishers a = None →
  rided (self w) = RidedDict kw →
  RideD_new kw = Ok r →
  on_start w
  = ({| self := set_rided (RidedBuilt r) (self w);
        out := [TimedCall (arg_maintenance_interval a)
                  "__maintain_topology" true] |},
     Raise (Exn AssertionError "")).
Proof.
  intros Hinit Hpubs Hr Hnew.
  assert (publishers (self w) = None ∧ out w = []
          ∧ maintenance_interval (self w) = arg_maintenance_interval a)
    as (Hp & Hout & Hint).
  { revert Hinit. unfold __init__.
    destruct (if negb (arg_multicast a) then _ else _) as [slot|e]; [|done].
    destruct (arg_addresses a) as [|a0 ?]; [done|].
    destruct (CoapClient_new _ _ _) as [c|e]; [|done].
    by intros [= <-]. }
  unfold on_start. unfold_monad. simpl. rewrite Hr. simpl.
  rewrite Hnew. simpl. by rewrite Hp, Hout, Hint.
Qed.

(** X12. [on_event] reports a publication to RIDE-D exactly when the topic
    is the pick topic, the event is not local, the middleware is built and
    the source of the event has a host name; it then reports that host once,
    as an IP address.  It issues no CoAP request and leaves the registry
    alone; for any other topic it raises AssertionError and changes
    nothing. *)
Theorem pick_notification ev t w :
  ∃ w' res l,
    on_event ev t w = (w', res)
    ∧ out w' = out w ++ l
    ∧ notifications l
      = (if String.eqb t SEISMIC_PICK_TOPIC && negb (is_local ev) then
           match rided (self w), get_hostname_from_path (source ev) with
           | RidedBuilt _, Some publisher => [(publisher, "ip")]
           | _, _ => []
           end
         else [])
    ∧ put_requests l = []
    ∧ subscribers (self w') = subscribers (self w)
    ∧ (t ≠ SEISMIC_PICK_TOPIC →
       w' = w ∧ ∃ msg, res = Raise (Exn AssertionError msg)).
Proof.
  unfold on_event, with_rided. unfold_monad. simpl.
  destruct (String.eqb t SEISMIC_PICK_TOPIC) eqn:Ht; simpl.
  2: { exists w, (Raise (Exn AssertionError
         ("received non-seismic event we didn't subscribe to! topic=" +:+ t))),
         []. rewrite app_nil_r. split_and!; eauto. }
  apply String.eqb_eq in Ht.
  destruct (rided (self w)) as [|kw|r] eqn:Hr; simpl;
    destruct (is_local ev); simpl;
    try (eexists w, _, []; rewrite app_nil_r; by split_and!).
  - destruct (get_hostname_from_path (source ev)); simpl; rewrite ?Hr;
      eexists w, _, []; rewrite app_nil_r; by split_and!.
  - destruct (get_hostname_from_path (source ev)) as [p|]; simpl; rewrite ?Hr.
    + destruct (notify_publication r p "ip") as [r' res]. simpl.
      eexists _, _, [_]. by split_and!.
    + eexists w, _, []. rewrite app_nil_r. by split_and!.
Qed.

(** X13. A subscription request whose payload is the alert topic puts the
    host the request came from into the registry under the alert topic.  The
    handler answers with the resource in unicast mode; with the middleware
    built it answers with the resource when the validation of that host goes
    through and with False otherwise. *)
Theorem coap_subscription_alert_topic {Res} (req : CoapRequest) (res : Res) w :
  req_payload req = SEISMIC_ALERT_TOPIC →
  ∃ w' answer,
    __process_coap_subscription req res w = (w', answer)
    ∧ registered (subscribers (self w')) SEISMIC_ALERT_TOPIC (req_source req).1
    ∧ (rided (self w) = RidedNone → answer = Ok (Some res))
    ∧ (∀ r, rided (self w) = RidedBuilt r →
         (validated r (req_source req).1 ∧ answer = Ok (Some res))
         ∨ (¬ validated r (req_source req).1 ∧ answer = Ok None)).
Proof.
  intros Hpayload. unfold __process_coap_subscription.
  destruct (req_source req) as [host p]. simpl. rewrite Hpayload.
  unfold_monad. rewrite String.eqb_refl. simpl.
  pose proof (process_subscription_registry SEISMIC_ALERT_TOPIC host w)
    as Hsubs.
  destruct (process_subscription SEISMIC_ALERT_TOPIC host w) as [w' out']
    eqn:Hrun.
  simpl in Hsubs.
  assert (registered (subscribers (self w')) SEISMIC_ALERT_TOPIC host) as Hin.
  { rewrite Hsubs. apply registered_registry_add. }
  exists (match out' with Ok true | Ok false | Raise _ => w' end),
    (match out' with
     | Ok true => Ok (Some res)
     | Ok false => Ok None
     | Raise e => Raise e
     end).
  split_and!.
  - by destruct out' as [[]|e].
  - by destruct out' as [[]|e].
  - intros Hr. rewrite (process_subscription_unicast _ _ _ Hr) in Hrun.
    by injection Hrun as <- <-.
  - intros r Hr.
    destruct (process_subscription_built SEISMIC_ALERT_TOPIC host w r Hr)
      as (w2 & b & Hrun' & Hb).
    rewrite Hrun' in Hrun. injection Hrun as <- <-.
    destruct b; [left|right]; (split; [|done]).
    + by apply Hb.
    + intros Hv. apply Hb in Hv. done.
Qed.

End Further.

(** * Properties of the subscriber *)

Module SubscriberFacts.
Import Subscriber.

Section Facts.
Context `{V : Env}.
Implicit Types (w : World) (ev_id : string).

Lemma keeps_first_copies_refl w : keeps_first_copies w w.
Proof. intros ev_id stored Hs. by exists stored. Qed.

Lemma keeps_first_copies_trans w1 w2 w3 :
  keeps_first_copies w1 w2 → keeps_first_copies w2 w3 →
  keeps_first_copies w1 w3.
Proof.
  intros H12 H23 ev_id stored Hs.
  destruct (H12 _ _ Hs) as (s2 & Hs2 & Hk2).
  destruct (H23 _ _ Hs2) as (s3 & Hs3 & Hk3).
  exists s3. split; [done|]. intros k Hk. by rewrite Hk3, Hk2.
Qed.

Lemma copies_counted w ev_id :
  counted w → is_Some (events_rcvd w !! ev_id) → is_Some (copies w ev_id).
Proof.
  intros Hc [stored Hs]. unfold copies. rewrite Hs.
  destruct (Hc _ _ Hs) as [n ->]. eauto.
Qed.

(** One item, whatever it is: the exception is TypeError if any, the stored
    picks stay counted, the first copies are kept, nothing is logged. *)
Lemma receive_any ev_id it w :
  counted w →
  let w' := (receive ev_id it w).1 in
  counted w'
  ∧ keeps_first_copies w w'
  ∧ logged w' = logged w
  ∧ ((receive ev_id it w).2 = None ∨ (receive ev_id it w).2 = Some TypeError).
Proof.
  intros Hc. cbv zeta. unfold receive, counted, keeps_first_copies.
  destruct (events_rcvd w !! ev_id) as [stored|] eqn:Hs.
  - destruct (Hc _ _ Hs) as [n Hn]. rewrite Hn. simpl. split_and!.
    + intros id' stored'. destruct (decide (ev_id = id')) as [<-|Hne].
      * rewrite lookup_insert_eq. intros [= <-]. exists (n + 1)%Z.
        by rewrite lookup_insert_eq.
      * rewrite lookup_insert_ne by done. apply Hc.
    + intros id' stored'. destruct (decide (ev_id = id')) as [<-|Hne].
      * rewrite lookup_insert_eq, Hs. intros [= <-]. eexists. split; [done|].
        intros k Hk. by rewrite lookup_insert_ne.
      * rewrite lookup_insert_ne by done. intros Hs'. by exists stored'.
    + done.
    + by left.
  - destruct it as [p|]; simpl.
    + split_and!; [| |done|by left].
      * intros id' stored'. destruct (decide (ev_id = id')) as [<-|Hne].
        -- rewrite lookup_insert_eq. intros [= <-]. exists 1%Z.
           by rewrite lookup_insert_eq.
        -- rewrite lookup_insert_ne by done. apply Hc.
      * intros id' stored' Hs'. exists stored'. split; [|done].
        rewrite lookup_insert_ne; [done|]. intros <-. congruence.
    + split_and!; [done| |done|by right].
      intros id' stored' Hs'. by exists stored'.
Qed.

Lemma receive_all_any items : ∀ w,
  counted w →
  let w' := (receive_all items w).1 in
  counted w'
  ∧ keeps_first_copies w w'
  ∧ logged w' = logged w
  ∧ ((receive_all items w).2 = None
     ∨ (receive_all items w).2 = Some TypeError).
Proof.
  induction items as [|[ev_id it] items IH]; intros w Hc; simpl.
  - split_and!; [done|apply keeps_first_copies_refl|done|by left].
  - destruct (receive_any ev_id it w Hc) as (Hc1 & Hk1 & Hl1 & Hr1).
    destruct (receive ev_id it w) as [w1 [e|]]; simpl in *.
    + split_and!; [done..|]. destruct Hr1 as [?|?]; [done|by right].
    + destruct (IH w1 Hc1) as (Hc2 & Hk2 & Hl2 & Hr2).
      split_and!; [done| |congruence|done].
      by eapply keeps_first_copies_trans.
Qed.

(** One call of [on_event], whatever the alert. *)
Lemma on_event_any alert topic_arg w :
  counted w →
  let w' := (on_event alert topic_arg w).1 in
  counted w'
  ∧ keeps_first_copies w w'
  ∧ (∀ fmt, (ERROR, fmt) ∈ logged w' → (ERROR, fmt) ∈ logged w)
  ∧ (on_event alert topic_arg w).2 ∈
      [None; Some AssertionError; Some AttributeError; Some TypeError].
Proof.
  intros Hc. cbv zeta. unfold on_event.
  assert (∀ fmt, (ERROR, fmt) ∈ logged w ++ [(DEBUG, "processing alert: %s")]
                 → (ERROR, fmt) ∈ logged w) as Hlog.
  { intros fmt [Hin|Hin%list_elem_of_singleton]%elem_of_app;
      [done|discriminate]. }
  destruct (negb _); simpl.
  { split_and!; [done|apply keeps_first_copies_refl|done|set_solver]. }
  destruct (data alert) as [d|]; simpl.
  2: { split_and!; [done| |done|set_solver].
       intros ev_id stored Hs. by exists stored. }
  destruct (receive_all_any (dict_items d) (log DEBUG "processing alert: %s" w))
    as (Hc1 & Hk1 & Hl1 & Hr1); [done|].
  destruct (receive_all _ _) as [w1 [e|]]; simpl in *.
  - destruct Hr1 as [?|[= ->]]; [done|]. simpl.
    split_and!; [done|exact Hk1| |set_solver]. by rewrite Hl1.
  - split_and!; [done|exact Hk1| |set_solver]. by rewrite Hl1.
Qed.

Lemma initial_counted : counted initial.
Proof. intros ev_id stored. unfold initial. simpl. by rewrite lookup_empty. Qed.


Lemma carries_items (alert : AlertEvent * option string) d ev_id :
  data alert.1 = Some d →
  carries ev_id alert = bool_decide (ev_id ∈ (dict_items d).*1).
Proof.
  intros Hd. unfold carries. rewrite Hd. apply bool_decide_ext.
  rewrite dict_items_perm. split.
  - intros [it Hit]. apply list_elem_of_fmap. exists (ev_id, it).
    split; [done|]. by apply elem_of_map_to_list.
  - intros ([id it] & -> & Hin)%list_elem_of_fmap.
    apply elem_of_map_to_list in Hin. by exists it.
Qed.

(** A pick that is a dict: it is recorded, with one more copy. *)
Lemma receive_dict_copies ev_id p w :
  counted w →
  (receive ev_id (ItemDict p) w).2 = None
  ∧ ∀ id, copies (receive ev_id (ItemDict p) w).1 id
          = if decide (id = ev_id)
            then Some (default 0%Z (copies w ev_id) + 1)%Z
            else copies w id.
Proof.
  intros Hc. unfold receive, copies.
  destruct (events_rcvd w !! ev_id) as [stored|] eqn:Hs.
  - destruct (Hc _ _ Hs) as [n Hn]. rewrite Hn. simpl. split; [done|].
    intros id. destruct (decide (id = ev_id)) as [->|Hne].
    + by rewrite !lookup_insert_eq.
    + by rewrite lookup_insert_ne.
  - simpl. split; [done|]. intros id.
    destruct (decide (id = ev_id)) as [->|Hne].
    + by rewrite !lookup_insert_eq.
    + by rewrite lookup_insert_ne.
Qed.

Lemma receive_all_copies items : ∀ w,
  NoDup items.*1 →
  Forall (λ x, ∃ p, x.2 = ItemDict p) items →
  counted w →
  (receive_all items w).2 = None
  ∧ ∀ id, copies (receive_all items w).1 id
          = if bool_decide (id ∈ items.*1)
            then Some (default 0%Z (copies w id) + 1)%Z
            else copies w id.
Proof.
  induction items as [|[ev_id it] items IH]; intros w Hnd Hall Hc.
  - split; [done|]. intros id. rewrite bool_decide_eq_false_2; [done|].
    apply not_elem_of_nil.
  - simpl. apply NoDup_cons in Hnd as [Hnotin Hnd].
    apply Forall_cons in Hall as [[p Hp] Hall]. simpl in Hp. subst it.
    destruct (receive_dict_copies ev_id p w Hc) as [Hres Hcopies].
    destruct (receive_any ev_id (ItemDict p) w Hc) as (Hc1 & _).
    destruct (receive ev_id (ItemDict p) w) as [w1 res]. simpl in *.
    subst res. destruct (IH w1 Hnd Hall Hc1) as [Hres' Hcopies'].
    split; [done|]. intros id. rewrite Hcopies', !Hcopies.
    destruct (decide (id = ev_id)) as [->|Hne].
    + rewrite bool_decide_eq_false_2 by done.
      rewrite bool_decide_eq_true_2; [done|]. by left.
    + destruct (bool_decide (id ∈ items.*1)) eqn:Hin.
      * rewrite bool_decide_eq_true_2; [done|].
        apply bool_decide_eq_true in Hin. by right.
      * rewrite bool_decide_eq_false_2; [done|].
        apply bool_decide_eq_false in Hin.
        by intros [?|?]%elem_of_cons.
Qed.

(** One well-formed alert. *)
Lemma on_event_copies (alert : AlertEvent * option string) w :
  well_formed alert →
  counted w →
  (on_event alert.1 alert.2 w).2 = None
  ∧ ∀ id, copies (on_event alert.1 alert.2 w).1 id
          = if carries id alert
            then Some (default 0%Z (copies w id) + 1)%Z
            else copies w id.
Proof.
  intros [Htopic (d & Hd & Hdicts)] Hc. unfold on_event.
  rewrite Htopic, String.eqb_refl, Hd. simpl.
  destruct (receive_all_copies (dict_items d)
              (log DEBUG "processing alert: %s" w)) as [Hres Hcopies].
  - rewrite dict_items_perm. apply NoDup_fst_map_to_list.
  - apply Forall_forall. intros [id it] Hin. simpl.
    apply (Hdicts id). apply elem_of_map_to_list. by rewrite <- dict_items_perm.
  - done.
  - destruct (receive_all _ _) as [w1 res]. simpl in *. subst res.
    split; [done|]. intros id. rewrite Hcopies.
    by rewrite (carries_items alert d id Hd).
Qed.

Lemma occurrences_cons ev_id alert alerts :
  occurrences ev_id (alert :: alerts)
  = ((if carries ev_id alert then 1 else 0) + occurrences ev_id alerts)%Z.
Proof.
  unfold occurrences. simpl. destruct (carries ev_id alert); simpl; lia.
Qed.

Lemma occurrences_nonneg ev_id alerts : (0 ≤ occurrences ev_id alerts)%Z.
Proof. unfold occurrences. lia. Qed.

Lemma receive_alerts_counted alerts : ∀ w,
  counted w → counted (receive_alerts alerts w).
Proof.
  induction alerts as [|alert alerts IH]; intros w Hc; simpl; [done|].
  apply IH. by apply on_event_any.
Qed.

Lemma receive_alerts_copies alerts : ∀ w ev_id,
  Forall well_formed alerts →
  counted w →
  copies (receive_alerts alerts w) ev_id
  = if decide (occurrences ev_id alerts = 0%Z)
    then copies w ev_id
    else Some (default 0%Z (copies w ev_id) + occurrences ev_id alerts)%Z.
Proof.
  induction alerts as [|alert alerts IH]; intros w ev_id Hall Hc; simpl.
  - done.
  - apply Forall_cons in Hall as [Hwf Hall].
    destruct (on_event_copies alert w Hwf Hc) as [_ Hcopies].
    assert (counted (on_event alert.1 alert.2 w).1) as Hc1
      by (by apply on_event_any).
    rewrite (IH _ ev_id Hall Hc1), Hcopies, occurrences_cons.
    pose proof (occurrences_nonneg ev_id alerts).
    destruct (carries ev_id alert);
      repeat case_decide; simpl; try lia; try done; f_equal; lia.
Qed.


(** X14. After any sequence of well-formed alerts received from the start,
    the subscriber holds a pick exactly for the ids that occurred, and the
    [copies_rcvd] of each is the number of alerts that carried it. *)
Theorem alert_copies_counted alerts ev_id :
  Forall well_formed alerts →
  copies (receive_alerts alerts initial) ev_id
  = if decide (occurrences ev_id alerts = 0%Z) then None
    else Some (occurrences ev_id alerts).
Proof.
  intros Hall.
  rewrite (receive_alerts_copies alerts initial ev_id Hall initial_counted).
  case_decide; [done|]. simpl. f_equal.
Qed.

(** X15. The handler of ValueError and KeyError in [on_event] never runs:
    whatever alerts have been received, well-formed or not, a further call
    returns or raises AssertionError, AttributeError or TypeError, logs no
    error, and every stored pick has an integer under [copies_rcvd]. *)
Theorem malformed_alert_handler_dead alerts alert topic_arg :
  let w := receive_alerts alerts initial in
  (on_event alert topic_arg w).2
    ∈ [None; Some AssertionError; Some AttributeError; Some TypeError]
  ∧ (∀ fmt, (ERROR, fmt) ∉ logged (on_event alert topic_arg w).1)
  ∧ counted (on_event alert topic_arg w).1.
Proof.
  intros w.
  assert (∀ alerts w0, counted w0 → (∀ fmt, (ERROR, fmt) ∉ logged w0) →
            ∀ fmt, (ERROR, fmt) ∉ logged (receive_alerts alerts w0)) as Hlog.
  { clear. induction alerts as [|a alerts IH]; intros w0 Hc Hno; simpl;
      [done|].
    destruct (on_event_any a.1 a.2 w0 Hc) as (Hc1 & _ & Hl1 & _).
    apply IH; [done|]. intros fmt Hin. by eapply Hno, Hl1. }
  assert (counted w) as Hc by apply receive_alerts_counted, initial_counted.
  destruct (on_event_any alert topic_arg w Hc) as (Hc1 & _ & Hl1 & Hr1).
  split_and!; [done| |done].
  intros fmt Hin. apply Hl1 in Hin. revert Hin.
  apply Hlog; [apply initial_counted|]. intros fmt' Hin'.
  by apply elem_of_nil in Hin'.
Qed.

(** X16. The first copy of a pick is the one kept: whatever alerts follow,
    the stored pick keeps every value it had, its [time_rcvd] included;
    only [copies_rcvd] changes. *)
Theorem first_copy_kept before after ev_id stored :
  let w := receive_alerts before initial in
  events_rcvd w !! ev_id = Some stored →
  ∃ stored',
    events_rcvd (receive_alerts after w) !! ev_id = Some stored'
    ∧ same_but_copies stored stored'.
Proof.
  intros w.
  assert (counted w) as Hc by apply receive_alerts_counted, initial_counted.
  clearbody w. revert w Hc stored.
  induction after as [|a after IH]; intros w Hc stored Hs; simpl.
  - by exists stored.
  - destruct (on_event_any a.1 a.2 w Hc) as (Hc1 & Hk1 & _).
    destruct (Hk1 _ _ Hs) as (s1 & Hs1 & Hsame1).
    destruct (IH _ Hc1 _ Hs1) as (s2 & Hs2 & Hsame2).
    exists s2. split; [done|]. intros k Hk. by rewrite Hsame2, Hsame1.
Qed.

End Facts.
End SubscriberFacts.

(** * Properties of the server *)

Module ServerFacts.
Import Server.

Section Facts.
Context `{V : Env}.
Implicit Types (w : World).

(** Reading datagrams appends the ones that decode, in order, and touches
    neither the socket nor the configuration; it sends nothing and starts
    no timer. *)
Lemma read_all_run datagrams : ∀ w,
  events_rcvd (read_all datagrams w)
  = events_rcvd w ++ omap json_loads datagrams
  ∧ sock (read_all datagrams w) = sock w
  ∧ config (read_all datagrams w) = config w
  ∧ ∃ l, out (read_all datagrams w) = out w ++ l
         ∧ sent l = [] ∧ timers l = [].
Proof.
  unfold read_all.
  induction datagrams as [|data datagrams IH]; intros w.
  - simpl. rewrite app_nil_r. split_and!; try done.
    exists []. by rewrite app_nil_r.
  - cbn [foldl omap list_omap].
    destruct (IH (handle_read (inl data) w).1) as (He & Hs & Hc & l & Ho & Hl).
    rewrite He, Hs, Hc, Ho. clear IH He Hs Hc Ho.
    unfold handle_read. destruct (json_loads data) as [event|]; simpl.
    + rewrite <- app_assoc. split_and!; try done.
      exists (Print "received event %s" :: l). by rewrite <- app_assoc.
    + split_and!; try done.
      exists (Print "Error parsing JSON from %s" :: l). by rewrite <- app_assoc.
Qed.

(** X17. With one call at a time, nothing is lost between two ticks and
    nothing is sent twice: when [send_events] runs after some datagrams have
    been read and the socket takes the datagram, it sends, in one datagram
    to the configured address
    and port, the events that were pending together with the ones decoded
    from the datagrams read, in arrival order; datagrams that do not decode
    are left out; with nothing to send it sends nothing.  Either way the
    buffer is empty afterwards and the timer is started again once. *)
Theorem collected_events_forwarded datagrams w :
  let w1 := read_all datagrams w in
  let collected := events_rcvd w ++ omap json_loads datagrams in
  let dest := (address (config w), port (config w)) in
  (sock_sendto (sock w) (json_dumps_aggregate collected) dest).2 = None →
  ∃ w2 l,
    send_events w1 = (w2, None)
    ∧ out w2 = out w1 ++ l
    ∧ events_rcvd w2 = []
    ∧ timers l = ["send_events"]
    ∧ sent l = match collected with
               | [] => []
               | _ => [(json_dumps_aggregate collected, dest)]
               end.
Proof.
  intros w1 collected dest Hsend.
  destruct (read_all_run datagrams w) as (He & Hs & Hc & _).
  fold w1 in He, Hs, Hc. fold collected in He.
  unfold send_events. rewrite He, Hs, Hc. fold dest.
  destruct collected as [|event collected'] eqn:Hcol.
  - simpl. eexists _, [_]. by split_and!.
  - rewrite bool_decide_eq_true_2 by (simpl; lia).
    destruct (sock_sendto _ _ _) as [s raised]. simpl in Hsend. subst raised.
    simpl. eexists _, [_; _].
    split_and!; try reflexivity; simpl; rewrite <- ?app_assoc; done.
Qed.

(** X18. When the socket raises on the aggregated datagram, [send_events]
    raises the exception, keeps the pending events, and does not start the
    timer again: no later tick will send them. *)
Theorem failed_send_stops_the_timer w e :
  events_rcvd w ≠ [] →
  (sock_sendto (sock w) (json_dumps_aggregate (events_rcvd w))
     (address (config w), port (config w))).2 = Some e →
  ∃ w' l,
    send_events w = (w', Some e)
    ∧ out w' = out w ++ l
    ∧ events_rcvd w' = events_rcvd w
    ∧ timers l = []
    ∧ sent l = [(json_dumps_aggregate (events_rcvd w),
                 (address (config w), port (config w)))].
Proof.
  intros Hne Hsend. unfold send_events.
  rewrite bool_decide_eq_true_2
    by (destruct (events_rcvd w); [done|simpl; lia]).
  destruct (sock_sendto _ _ _) as [s raised]. simpl in Hsend. subst raised.
  simpl. eexists _, [_]. by split_and!.
Qed.

End Facts.
End ServerFacts.

(** * The further properties on the simulated network *)

Module FurtherExamples.
Import Fake Scenario FurtherScenario.

(** X1 on a network with a multicast tree: one request, to 224.0.0.7. *)
Lemma multicast_single_request_witness :
  ∃ w' l,
    send_event alert (multicast0 net_tree) = (w', Ok true)
    ∧ out w' = out (multicast0 net_tree) ++ l
    ∧ put_requests l = [request_to (multicast0 net_tree) alert "224.0.0.7"]
    ∧ encodings l = [alert]
    ∧ subscribers (self w') = subscribers (self (multicast0 net_tree)).
Proof.
  exact (multicast_single_request alert (multicast0 net_tree)
           net_tree net_tree "224.0.0.7" eq_refl eq_refl eq_refl).
Defined.

(** X2 on the unicast sink without subscribers: no request, and true. *)
Lemma unicast_all_delivered_witness :
  ∃ w' l,
    send_event alert unicast0 = (w', Ok true)
    ∧ out w' = out unicast0 ++ l
    ∧ put_requests l
      = request_to unicast0 alert
          <$> registry_get (E := externals net []) (topic alert)
                (subscribers (self unicast0))
    ∧ encodings l = [alert]
    ∧ (subscribers (self unicast0) !! topic alert = None →
       put_requests l = []).
Proof.
  exact (unicast_all_delivered alert unicast0 [] eq_refl eq_refl).
Defined.

(** X3 on the sink with two subscribers, the second of them unreachable. *)
Lemma unicast_requests_prefix_witness :
  use_multicast (self (unicast2 ["10.0.0.2"])) = false
  ∧ ∃ w' res l,
      send_event alert (unicast2 ["10.0.0.2"]) = (w', res)
      ∧ NoDup (put_requests l)
      ∧ out w' = out (unicast2 ["10.0.0.2"]) ++ l.
Proof.
  split; [reflexivity|].
  destruct (unicast_requests_prefix alert (unicast2 ["10.0.0.2"]) eq_refl)
    as (w' & res & l & Hrun & Hout & _ & Hnd & _).
  exists w', res, l. split; [exact Hrun|]. split; [exact Hnd|exact Hout].
Defined.

(** X4 on a host that resolves and has a path, and on one that has none. *)
Lemma subscription_verdict_witness :
  (∃ w' b, process_subscription "seismic_alert" "10.0.0.2" (multicast0 net)
           = (w', Ok b)
           ∧ (b = true ↔ validated (E := externals net []) net "10.0.0.2"))
  ∧ (process_subscription "seismic_alert" "10.0.0.2" (multicast0 net)).2
    = Ok true
  ∧ (process_subscription "seismic_alert" "10.0.0.9" (multicast0 net)).2
    = Ok false.
Proof.
  split; [|split; vm_compute; reflexivity].
  exact (subscription_verdict "seismic_alert" "10.0.0.2" (multicast0 net) net
           eq_refl).
Defined.

(** X5 and X6 on the sink with one subscriber, after an alert has been
    sent. *)
Lemma registry_never_shrinks_witness :
  rtc step unicast1 (send_event alert unicast1).1
  ∧ registered (subscribers (self (send_event alert unicast1).1))
      "seismic_alert" "10.0.0.2".
Proof.
  assert (rtc step unicast1 (send_event alert unicast1).1) as Hsteps
    by apply rtc_once, step_send_event.
  split; [exact Hsteps|].
  apply (registry_never_shrinks unicast1 _ "seismic_alert" "10.0.0.2" Hsteps).
  exists {[ "10.0.0.2" ]}. split; [reflexivity|]. by apply elem_of_singleton.
Defined.

Lemma configuration_fixed_witness :
  rtc step unicast0 unicast1 ∧ same_config (self unicast0) (self unicast1).
Proof.
  assert (rtc step unicast0 unicast1) as Hsteps
    by apply rtc_once, step_process_subscription.
  split; [exact Hsteps|]. exact (configuration_fixed unicast0 unicast1 Hsteps).
Defined.

(** X7 on the sink with one subscriber. *)
Lemma mode_never_mixed_witness :
  reachable unicast1
  ∧ mode_consistent (self unicast1) ∧ (__on_coap_ready unicast1).2 = Ok ().
Proof.
  assert (reachable unicast1) as Hreach.
  { eapply reachable_step; [|apply step_process_subscription].
    by apply (reachable_init (args false)). }
  split; [exact Hreach|]. exact (mode_never_mixed unicast1 Hreach).
Defined.

(** X9 on a first subscriber. *)
Lemma subscriber_gets_next_alert_witness :
  ∃ w' l,
    send_event alert unicast1 = (w', Ok true)
    ∧ out w' = out unicast1 ++ l
    ∧ request_to unicast1 alert "10.0.0.2" ∈ put_requests l.
Proof.
  exact (subscriber_gets_next_alert alert "10.0.0.2" unicast0 []
           eq_refl eq_refl).
Defined.

(** X10 on the multicast sink of the examples. *)
Lemma on_start_twice_witness :
  (on_start multicast_init).2 = Ok ()
  ∧ on_start (on_start multicast_init).1
    = ((on_start multicast_init).1, Raise (Exn AssertionError "")).
Proof.
  exact (on_start_twice (E := externals net []) multicast_init _ net
           ["p1"; "p2"] eq_refl eq_refl eq_refl).
Defined.

(** X11 on a multicast sink built without publishers. *)
Lemma on_start_without_publishers_witness :
  __init__ args_no_publishers = Ok multicast_no_publishers
  ∧ (on_start multicast_no_publishers).2 = Raise (Exn AssertionError "").
Proof.
  split; [reflexivity|].
  rewrite (on_start_without_publishers (E := externals net [])
             args_no_publishers multicast_no_publishers _ net
             eq_refl eq_refl eq_refl eq_refl).
  reflexivity.
Defined.

(** X13 on a request of host 10.0.0.2 to the unicast sink. *)
Lemma coap_subscription_alert_topic_witness :
  ∃ w' answer,
    __process_coap_subscription
      {| req_source := ("10.0.0.2", 40000%Z); req_payload := "seismic_alert" |}
      () unicast0 = (w', answer)
    ∧ registered (subscribers (self w')) "seismic_alert" "10.0.0.2"
    ∧ answer = Ok (Some ()).
Proof.
  destruct (coap_subscription_alert_topic (E := externals net [])
              {| req_source := ("10.0.0.2", 40000%Z);
                 req_payload := "seismic_alert" |} () unicast0 eq_refl)
    as (w' & answer & Hrun & Hreg & Hunicast & _).
  exists w', answer. split; [exact Hrun|]. split; [exact Hreg|].
  apply Hunicast. reflexivity.
Defined.

Lemma alerts_well_formed :
  Forall (Subscriber.well_formed (V := subscriber_env)) [alert_a; alert_ab].
Proof.
  repeat apply Forall_cons_2; [| |apply Forall_nil_2];
    (split; [reflexivity|]); eexists; (split; [reflexivity|]);
    intros ev_id it Hit.
  - apply lookup_singleton_Some in Hit as [_ <-]. eauto.
  - apply lookup_insert_Some in Hit as [[_ <-]|[_ Hit]]; [eauto|].
    apply lookup_singleton_Some in Hit as [_ <-]. eauto.
Qed.

(** X14 on the two alerts: pick a has come twice, pick b once. *)
Lemma alert_copies_counted_witness :
  Forall (Subscriber.well_formed (V := subscriber_env)) [alert_a; alert_ab]
  ∧ Subscriber.copies
      (Subscriber.receive_alerts [alert_a; alert_ab] Subscriber.initial) "a"
    = Some 2%Z.
Proof.
  split; [exact alerts_well_formed|].
  rewrite (SubscriberFacts.alert_copies_counted (V := subscriber_env)
             [alert_a; alert_ab] "a" alerts_well_formed).
  vm_compute. reflexivity.
Defined.

(** X16 on the two alerts: the second copy of pick a changes neither its
    magnitude nor the time of its receipt. *)
Lemma first_copy_kept_witness :
  ∃ stored',
    Subscriber.events_rcvd
      (Subscriber.receive_alerts [alert_ab]
         (Subscriber.receive_alerts [alert_a] Subscriber.initial)) !! "a"
    = Some stored'
    ∧ Subscriber.same_but_copies (V := subscriber_env)
        (<[ "copies_rcvd" := Subscriber.VInt 1 ]>
           (<[ "time_rcvd" := Subscriber.VTime 1000 ]> (pick "4.2")))
        stored'.
Proof.
  apply (SubscriberFacts.first_copy_kept (V := subscriber_env)
           [alert_a] [alert_ab] "a").
  vm_compute. reflexivity.
Defined.

(** X17 on a server with nothing pending that reads two picks and a
    datagram that is no JSON. *)
Lemma collected_events_forwarded_witness :
  ∃ w2 (l : list (@Server.effect server_env)),
    Server.send_events
      (Server.read_all ["{1}"; "no json"; "{2}"]
         (Server.init server_config true)) = (w2, None)
    ∧ Server.events_rcvd w2 = []
    ∧ Server.timers l = ["send_events"]
    ∧ Server.sent l = [("{1},{2}", ("127.0.0.1", 9999%Z))].
Proof.
  destruct (ServerFacts.collected_events_forwarded (V := server_env)
              ["{1}"; "no json"; "{2}"] (Server.init server_config true)
              eq_refl)
    as (w2 & l & Hrun & _ & Hbuf & Htimers & Hsent).
  exists w2, l. split; [exact Hrun|]. split; [exact Hbuf|].
  split; [exact Htimers|exact Hsent].
Defined.

(** X18 on a server with two picks pending whose socket is down. *)
Lemma failed_send_stops_the_timer_witness :
  ∃ w' (l : list (@Server.effect server_env)),
    Server.send_events
      (Server.read_all ["{1}"; "{2}"] (Server.init server_config false))
    = (w', Some (Exn socket_error "Network is unreachable"))
    ∧ Server.events_rcvd w' = ["{1}"; "{2}"]
    ∧ Server.timers l = [].
Proof.
  destruct (ServerFacts.failed_send_stops_the_timer (V := server_env)
              (Server.read_all ["{1}"; "{2}"]
                 (Server.init server_config false))
              (Exn socket_error "Network is unreachable"))
    as (w' & l & Hrun & _ & Hbuf & Htimers & _);
    [discriminate|reflexivity|].
  exists w', l. split; [exact Hrun|]. split; [exact Hbuf|exact Htimers].
Defined.

End FurtherExamples.
